(** * photo-gallery-worker: the bucket adapter and the process lifecycle

    A shallow embedding of the two source files of the repository:

    - package [bucket] (the object store adapter over a cloud bucket
      handle): [Bucket.New], [Bucket.Put], [Bucket.Get];
    - package [main] (the lifecycle controller): [Main.main],
      [Main.declareExchange], [Main.declareAndBindQueue].

    External libraries (the cloud storage client, [io.Copy], the AMQP
    client, the HTTP engine, [log], [os]) are modelled by their observable
    behaviour; what they decide on their own (whether a call fails) is an
    oracle carried by the model, so every theorem covers every behaviour of
    the environment. *)

From Stdlib Require Import Strings.Byte.
From stdpp Require Import base option list strings gmap fin_maps.

Local Open Scope string_scope.
Local Open Scope list_scope.

(** Go's [error] values; [nil] is [None] in an [option error]. *)
Inductive error : Type := Err (msg : string).

#[global] Instance error_eq_dec : EqDecision error.
Proof. solve_decision. Defined.

Definition Error (e : error) : string := match e with Err m => m end.

(* ===================================================================== *)
(** * Package bucket *)
(* ===================================================================== *)

Module Bucket.

(** ** The io.Reader of the caller

    An [io.Reader] is what successive [Read] calls return: a sequence of
    chunks, then either [io.EOF] ([r_err = None]) or an error. *)
Record io_Reader : Type := {
  r_chunks : list (list byte);
  r_err : option error
}.

(** All the bytes the reader delivers before it ends. *)
Definition content (r : io_Reader) : list byte := concat (r_chunks r).

(** [io.ReadAll]: the bytes read, and the error unless it is [io.EOF]. *)
Definition io_ReadAll (r : io_Reader) : list byte * option error :=
  (content r, r_err r).

(** A reader over a byte slice, as [bytes.NewReader] gives. *)
Definition bytes_NewReader (b : list byte) : io_Reader :=
  {| r_chunks := [b]; r_err := None |}.

(** Modelled from the spec: the declaration of [thumb.Thumbnail] is missing
    from the sources; the spec has it as "a named byte stream", and [Put]
    reads exactly these two fields. *)
Record Thumbnail : Type := {
  Filename : string;
  Reader : io_Reader
}.

(** ** The cloud bucket behind [*storage.BucketHandle]

    The calls the backend receives, oldest first. *)
Inductive Call : Type :=
| CNewWriter (name : string)
| CWrite (name : string) (p : list byte)
| CClose (name : string)
| CNewReader (name : string).

(** The bucket: the committed objects, the calls received so far, and the
    oracle that says, from the calls received including the current one,
    whether the backend fails the current call. *)
Record BucketHandle : Type := {
  objects : gmap string (list byte);
  calls : list Call;
  oracle : list Call -> option error
}.

Definition record (c : Call) (h : BucketHandle) : BucketHandle :=
  {| objects := objects h; calls := calls h ++ [c]; oracle := oracle h |}.

(** Does the backend fail call [c], arriving now? *)
Definition fault (c : Call) (h : BucketHandle) : option error :=
  oracle h (calls h ++ [c]).

(** [*storage.Writer]: the object it writes and the bytes sent so far. An
    object becomes visible in the bucket when its writer is closed. *)
Record Writer : Type := {
  w_name : string;
  w_buf : list byte
}.

(** [handle.Object(name).NewWriter(ctx)] never fails. *)
Definition NewWriter (name : string) (h : BucketHandle) : Writer * BucketHandle :=
  ({| w_name := name; w_buf := [] |}, record (CNewWriter name) h).

(** [writer.Write(p)]: the number of bytes taken and the error. *)
Definition Write (w : Writer) (p : list byte) (h : BucketHandle)
  : nat * option error * Writer * BucketHandle :=
  let c := CWrite (w_name w) p in
  match fault c h with
  | Some e => (0, Some e, w, record c h)
  | None => (length p, None,
             {| w_name := w_name w; w_buf := w_buf w ++ p |}, record c h)
  end.

(** [writer.Close()]: on success the object is committed under its name,
    replacing what was there; on failure the bucket keeps what it had. *)
Definition Close (w : Writer) (h : BucketHandle) : option error * BucketHandle :=
  let c := CClose (w_name w) in
  match fault c h with
  | Some e => (Some e, record c h)
  | None =>
      (None, {| objects := <[w_name w := w_buf w]> (objects h);
                calls := calls h ++ [c];
                oracle := oracle h |})
  end.

Definition ErrObjectNotExist : error := Err "storage: object doesn't exist".

(** [handle.Object(name).NewReader(ctx)]. *)
Definition NewReader (name : string) (h : BucketHandle)
  : (io_Reader + error) * BucketHandle :=
  let c := CNewReader name in
  match fault c h with
  | Some e => (inr e, record c h)
  | None =>
      match objects h !! name with
      | Some b => (inl (bytes_NewReader b), record c h)
      | None => (inr ErrObjectNotExist, record c h)
      end
  end.

(** [io.Copy(dst, src)]: read a chunk, write it, stop at the first write
    error or at the end of the source; [io.EOF] is not an error. An empty
    chunk is not written. *)
Fixpoint copy_chunks (w : Writer) (chunks : list (list byte))
    (rerr : option error) (written : nat) (h : BucketHandle)
  : nat * option error * Writer * BucketHandle :=
  match chunks with
  | [] => (written, rerr, w, h)
  | [] :: rest => copy_chunks w rest rerr written h
  | p :: rest =>
      match Write w p h with
      | (nw, Some ew, w', h') => (written + nw, Some ew, w', h')
      | (nw, None, w', h') => copy_chunks w' rest rerr (written + nw) h'
      end
  end.

Definition io_Copy (dst : Writer) (src : io_Reader) (h : BucketHandle)
  : nat * option error * Writer * BucketHandle :=
  copy_chunks dst (r_chunks src) (r_err src) 0 h.

(** ** The adapter *)

(** [type Bucket struct { handle *storage.BucketHandle }]: the state of the
    bucket behind the pointer is threaded through the methods. *)
Record Bucket : Type := { handle : BucketHandle }.

Definition New (handle : BucketHandle) : Bucket := {| handle := handle |}.

(** [func (s *Bucket) Put(ctx, image) error] *)
Definition Put (s : Bucket) (image : Thumbnail) : option error * Bucket :=
  let '(writer, h1) := NewWriter (Filename image) (handle s) in
  match io_Copy writer (Reader image) h1 with
  | (_, Some err, _, h2) => (Some err, New h2)
  | (_, None, writer', h2) =>
      let '(r, h3) := Close writer' h2 in (r, New h3)
  end.

(** [func (s *Bucket) Get(ctx, filename) (io.Reader, error)] *)
Definition Get (s : Bucket) (filename : string) : (io_Reader + error) * Bucket :=
  let '(r, h) := NewReader filename (handle s) in (r, New h).

(** The objects stored under key [f], as (key, content) pairs. *)
Definition stored_under (f : string) (s : Bucket) : list (string * list byte) :=
  filter (fun kv => kv.1 = f) (map_to_list (objects (handle s))).

(** A bucket whose backend never fails. *)
Definition reliable (objs : gmap string (list byte)) : Bucket :=
  New {| objects := objs; calls := []; oracle := fun _ => None |}.

(** A bucket whose backend fails exactly the calls [bad] selects. *)
Definition flaky (bad : Call -> bool) (e : error) : Bucket :=
  New {| objects := ∅; calls := [];
         oracle := fun cs => match last cs with
                             | Some c => if bad c then Some e else None
                             | None => None
                             end |}.

(** The error [io.Copy] returns inside [Put s image]. *)
Definition copy_err (s : Bucket) (image : Thumbnail) : option error :=
  let '(writer, h1) := NewWriter (Filename image) (handle s) in
  let '(_, err, _, _) := io_Copy writer (Reader image) h1 in err.

(** The error [writer.Close()] returns, were it called after the copy of
    [Put s image]. *)
Definition close_err (s : Bucket) (image : Thumbnail) : option error :=
  let '(writer, h1) := NewWriter (Filename image) (handle s) in
  let '(_, _, writer', h2) := io_Copy writer (Reader image) h1 in
  (Close writer' h2).1.

(** The calls the backend receives during [Put s image]. *)
Definition calls_of_Put (s : Bucket) (image : Thumbnail) : list Call :=
  drop (length (calls (handle s))) (calls (handle (Put s image).2)).

(** A source that breaks off after its first chunk. *)
Definition thumb_truncated : Thumbnail :=
  {| Filename := "photo123_400.jpg";
     Reader := {| r_chunks := [[x89; x50]];
                  r_err := Some (Err "unexpected EOF") |} |}.

(** Two versions of one thumbnail, and the bucket after each is put. *)
Definition thumb_v1 : Thumbnail :=
  {| Filename := "photo123_100.jpg";
     Reader := {| r_chunks := [[x89; x50]; [x4e; x47]]; r_err := None |} |}.

Definition thumb_v2 : Thumbnail :=
  {| Filename := "photo123_100.jpg";
     Reader := bytes_NewReader [xff; xd8; xff] |}.

Definition bucket_v1 : Bucket := (Put (reliable ∅) thumb_v1).2.
Definition bucket_v2 : Bucket := (Put bucket_v1 thumb_v2).2.

Definition is_close (c : Call) : bool :=
  match c with CClose _ => true | _ => false end.

Definition is_write (c : Call) : bool :=
  match c with CWrite _ _ => true | _ => false end.

(** ** Vocabulary of the further properties *)

Definition is_nonempty (p : list byte) : bool :=
  match p with [] => false | _ => true end.

(** The chunks of a reader that [io.Copy] hands to the writer. *)
Definition written_chunks (r : io_Reader) : list (list byte) :=
  List.filter is_nonempty (r_chunks r).

(** A sequence of [Put]s on one bucket, with the result of each. *)
Fixpoint Puts (images : list Thumbnail) (s : Bucket)
  : list (option error) * Bucket :=
  match images with
  | [] => ([], s)
  | image :: rest =>
      let '(r, s1) := Put s image in
      let '(rs, s2) := Puts rest s1 in
      (r :: rs, s2)
  end.

(** The content of the last thumbnail named [f] whose [Put] returned nil,
    or [cur] when there is none. *)
Fixpoint last_committed (f : string) (images : list Thumbnail)
    (results : list (option error)) (cur : option (list byte))
  : option (list byte) :=
  match images, results with
  | image :: images', r :: results' =>
      last_committed f images' results'
        (match r with
         | None => if String.eqb (Filename image) f
                   then Some (content (Reader image)) else cur
         | Some _ => cur
         end)
  | _, _ => cur
  end.

(** A thumbnail without a byte, delivered as two empty reads. *)
Definition thumb_empty : Thumbnail :=
  {| Filename := "blank.jpg";
     Reader := {| r_chunks := [[]; []]; r_err := None |} |}.

Definition thumb_other : Thumbnail :=
  {| Filename := "photo123_400.jpg";
     Reader := bytes_NewReader [x47; x49; x46] |}.

End Bucket.

(* ===================================================================== *)
(** * Package main *)
(* ===================================================================== *)

Module Main.

Definition dbHostEnv := "DB_HOST".
Definition dbUserEnv := "DB_USER".
Definition dbPasswordEnv := "DB_PASSWORD".
Definition dbNameEnv := "DB_NAME".
Definition dbPortEnv := "DB_PORT".
Definition minioEndpointEnv := "MINIO_ENDPOINT".
Definition minioRootUserEnv := "MINIO_ROOT_USER".
Definition minioRootPasswordEnv := "MINIO_ROOT_PASSWORD".
Definition photosBucketEnv := "PHOTOS_BUCKET".
Definition thumbsBucketEnv := "THUMBS_BUCKET".
Definition rabbitMQUrlEnv := "RABBITMQ_URL".
Definition queueNameEnv := "QUEUE_NAME".
Definition bucketExchangeNameEnv := "BUCKET_EXCHANGE_NAME".
Definition workerExchangeNameEnv := "WORKER_EXCHANGE_NAME".
Definition configFileEnv := "CONFIG_FILE".
Definition fanoutExchangeKind := "fanout".

(** ** Values main builds and passes around *)

(** Modelled from the spec: package [config] is missing from the sources;
    the spec has the dimension list as configuration ([[100, 400]] in its
    scenario), and main reads only [configs.Thumbs.Dimensions]. *)
Record Configs : Type := { Thumbs_Dimensions : list nat }.

Record DbConnection : Type := { db_dsn : string }.

Record MinioClient : Type := {
  mc_endpoint : string;
  mc_user : string;
  mc_password : string;
  mc_secure : bool
}.

Record Connection : Type := { conn_url : string }.
Record Channel : Type := { ch_conn : Connection }.

(** [amqp.Queue]; [amqp.Queue{}] is [Queue_zero]. *)
Record Queue : Type := { Name : string; Messages : nat; Consumers : nat }.
Definition Queue_zero : Queue := {| Name := ""; Messages := 0; Consumers := 0 |}.

(** The constructors of the other packages, as main applies them. *)
Inductive Database : Type := NewDatabase (conn : DbConnection).
Inductive Storage : Type := NewMinioStorage (client : MinioClient) (bucket : string).
Inductive Publisher : Type := NewAmpqPublisher (ch : Channel) (exchange : string).
Inductive Processor : Type := NewImagingProcessor.
Inductive Producer : Type := NewProducer (p : Publisher).

Record Bundle : Type := {
  PhotoStorage : Storage;
  ThumbStorage : Storage;
  Database_ : Database;
  Processor_ : Processor;
  Producer_ : Producer;
  Dimensions : list nat
}.

Inductive Worker : Type := NewThumbsWorker (b : Bundle).
Inductive Consumer : Type := NewConsumer (w : Worker).
Inductive Subscriber : Type := NewAmqpSubscriber (ch : Channel) (q : Queue).

(** What main has at hand to give to [api.GetThumbsHandler], whose
    parameter type is declared in the missing package [api]: the image
    database or one of the two storages. *)
Inductive Backing : Type :=
| BackingDatabase (db : Database)
| BackingStorage (st : Storage).

Inductive HandlerFunc : Type := GetThumbsHandler (b : Backing).

Record Route : Type := {
  route_method : string;
  route_path : string;
  route_handler : HandlerFunc
}.

(** ** The environment: what the outside world answers *)
Record Env : Type := {
  os_Getenv : string -> string;
  config_Load : string -> Configs + error;
  database_NewConnection : string -> option error;
  minio_New : string -> string -> string -> option error;
  amqp_Dial : string -> option error;
  connection_Channel : Connection -> option error;
  channel_ExchangeDeclare :
    string -> string -> bool -> bool -> bool -> bool -> option error;
  channel_QueueDeclare :
    string -> bool -> bool -> bool -> bool -> Queue + error;
  channel_QueueBind : string -> string -> string -> bool -> option error
}.

(** ** The process: observable events and state *)
Inductive Event : Type :=
| LogPrint (msg : string)
| ExchangeDeclare (name kind : string) (durable autoDelete internal noWait : bool)
| QueueDeclare (name : string) (durable autoDelete exclusive noWait : bool)
| QueueBind (name key exchange : string) (noWait : bool)
| ChannelClose (ch : Channel)
| ConnectionClose (conn : Connection)
| ContextCancel
| OsExit (code : Z).

(** The functions main defers, with the argument bound at [defer]. *)
Inductive Deferred : Type :=
| DeferConnectionClose (conn : Connection)
| DeferChannelClose (ch : Channel).

Inductive Goroutine : Type := NotStarted | Running | Finished.

Record State : Type := {
  trace : list Event;          (* oldest first *)
  defers : list Deferred;      (* most recent first *)
  notified : bool;             (* signal.Notify(signals, os.Interrupt) done *)
  signals : bool;              (* the channel of capacity 1 holds a signal *)
  ctx_err : option error;      (* ctx.Err(); ctx.Done() is closed iff Some *)
  subscriber : Goroutine;
  server : Goroutine;
  routes : list Route;
  exited : option Z
}.

Definition init : State :=
  {| trace := []; defers := []; notified := false; signals := false;
     ctx_err := None; subscriber := NotStarted; server := NotStarted;
     routes := []; exited := None |}.

Definition emit (e : Event) (s : State) : State :=
  {| trace := trace s ++ [e]; defers := defers s; notified := notified s;
     signals := signals s; ctx_err := ctx_err s; subscriber := subscriber s;
     server := server s; routes := routes s; exited := exited s |}.

Definition push_defer (d : Deferred) (s : State) : State :=
  {| trace := trace s; defers := d :: defers s; notified := notified s;
     signals := signals s; ctx_err := ctx_err s; subscriber := subscriber s;
     server := server s; routes := routes s; exited := exited s |}.

Definition set_notified (s : State) : State :=
  {| trace := trace s; defers := defers s; notified := true;
     signals := signals s; ctx_err := ctx_err s; subscriber := subscriber s;
     server := server s; routes := routes s; exited := exited s |}.

Definition set_signals (b : bool) (s : State) : State :=
  {| trace := trace s; defers := defers s; notified := notified s;
     signals := b; ctx_err := ctx_err s; subscriber := subscriber s;
     server := server s; routes := routes s; exited := exited s |}.

Definition set_ctx_err (e : option error) (s : State) : State :=
  {| trace := trace s; defers := defers s; notified := notified s;
     signals := signals s; ctx_err := e; subscriber := subscriber s;
     server := server s; routes := routes s; exited := exited s |}.

Definition set_subscriber (g : Goroutine) (s : State) : State :=
  {| trace := trace s; defers := defers s; notified := notified s;
     signals := signals s; ctx_err := ctx_err s; subscriber := g;
     server := server s; routes := routes s; exited := exited s |}.

Definition set_server (g : Goroutine) (rs : list Route) (s : State) : State :=
  {| trace := trace s; defers := defers s; notified := notified s;
     signals := signals s; ctx_err := ctx_err s; subscriber := subscriber s;
     server := g; routes := rs; exited := exited s |}.

Definition set_exited (code : Z) (s : State) : State :=
  {| trace := trace s; defers := defers s; notified := notified s;
     signals := signals s; ctx_err := ctx_err s; subscriber := subscriber s;
     server := server s; routes := routes s; exited := Some code |}.

(** [os.Exit(code)]: the process ends at once; deferred functions are not
    run. *)
Definition os_Exit (code : Z) (s : State) : State :=
  set_exited code (emit (OsExit code) s).

(** [log.Println(err)] *)
Definition log_Println (msg : string) (s : State) : State :=
  emit (LogPrint msg) s.

(** [log.Fatalln(err)] is [log.Println(err)] followed by [os.Exit(1)]. *)
Definition log_Fatalln (msg : string) (s : State) : State :=
  os_Exit 1 (log_Println msg s).

(** What a deferred function does when it runs. *)
Definition run_deferred (d : Deferred) (s : State) : State :=
  match d with
  | DeferConnectionClose conn => emit (ConnectionClose conn) s
  | DeferChannelClose ch => emit (ChannelClose ch) s
  end.

(** A return from [main] runs the deferred functions, last deferred first,
    and the process ends with status 0. *)
Definition return_from_main (s : State) : State :=
  let s' := fold_left (fun acc d => run_deferred d acc) (defers s) s in
  set_exited 0 (emit (OsExit 0)
    {| trace := trace s'; defers := []; notified := notified s';
       signals := signals s'; ctx_err := ctx_err s';
       subscriber := subscriber s'; server := server s';
       routes := routes s'; exited := exited s' |}).

(** ** Sequencing: a computation of main ends with a value, or with the
    process exited ([None], and [exited] says with which status). *)
Definition M (A : Type) : Type := State -> option A * State.

#[global] Instance M_ret : MRet M := fun A a s => (Some a, s).

#[global] Instance M_bind : MBind M := fun A B f m s =>
  match m s with
  | (Some a, s') => f a s'
  | (None, s') => (None, s')
  end.

Definition act (f : State -> State) : M unit := fun s => (Some tt, f s).

Definition fatal {A : Type} (e : error) : M A :=
  fun s => (None, log_Fatalln (Error e) s).

(** [if err != nil { log.Fatalln(err) }] *)
Definition check (r : option error) : M unit :=
  match r with
  | Some err => fatal err
  | None => mret tt
  end.

(** [v, err := f(...); if err != nil { log.Fatalln(err) }] *)
Definition must {A : Type} (r : A + error) : M A :=
  match r with
  | inl v => mret v
  | inr err => fatal err
  end.

(** ** The broker channel's methods: the call is observed, the broker
    answers. *)
Definition Channel_ExchangeDeclare (env : Env) (channel : Channel)
    (name kind : string) (durable autoDelete internal noWait : bool)
  : M (option error) :=
  fun s => (Some (channel_ExchangeDeclare env name kind durable autoDelete internal noWait),
            emit (ExchangeDeclare name kind durable autoDelete internal noWait) s).

Definition Channel_QueueDeclare (env : Env) (channel : Channel)
    (name : string) (durable autoDelete exclusive noWait : bool)
  : M (Queue + error) :=
  fun s => (Some (channel_QueueDeclare env name durable autoDelete exclusive noWait),
            emit (QueueDeclare name durable autoDelete exclusive noWait) s).

Definition Channel_QueueBind (env : Env) (channel : Channel)
    (name key exchange : string) (noWait : bool) : M (option error) :=
  fun s => (Some (channel_QueueBind env name key exchange noWait),
            emit (QueueBind name key exchange noWait) s).

(** [func declareExchange(channel, exchangeName) error] *)
Definition declareExchange (env : Env) (channel : Channel)
    (exchangeName : string) : M (option error) :=
  Channel_ExchangeDeclare env channel
    exchangeName
    fanoutExchangeKind
    true
    false
    false
    false.

(** [func declareAndBindQueue(channel, queue, exchange) (amqp.Queue, error)] *)
Definition declareAndBindQueue (env : Env) (channel : Channel)
    (queue exchange : string) : M (Queue * option error) :=
  r ← Channel_QueueDeclare env channel
         queue
         true
         false
         false
         false;
  match r with
  | inr err => mret (Queue_zero, Some err)
  | inl q =>
      e ← Channel_QueueBind env channel (Name q) "" exchange false;
      mret (q, e)
  end.

(** [context.Canceled] *)
Definition Canceled : error := Err "context canceled".

(** [cancel()]: the first call makes the context done; later calls do
    nothing. *)
Definition cancel (s : State) : State :=
  match ctx_err s with
  | None => set_ctx_err (Some Canceled) (emit ContextCancel s)
  | Some _ => s
  end.

(** What main has built when it reaches its loop. *)
Record Started : Type := {
  started_bundle : Bundle;
  started_consumer : Consumer;
  started_subscriber : Subscriber;
  started_publisher : Publisher
}.

(** The statements of the server goroutine before [engine.Run]. *)
Definition server_routes (db : Database) : list Route :=
  [ {| route_method := "GET";
       route_path := "/api/thumbs/:filename";
       route_handler := GetThumbsHandler (BackingDatabase db) |} ].

(** [fmt.Sprintf("host=%s user=%s password=%s dbname=%s port=%s sslmode=disable", ...)] *)
Definition Sprintf_dsn (host user password dbname port : string) : string :=
  "host=" +:+ host +:+ " user=" +:+ user +:+ " password=" +:+ password +:+
  " dbname=" +:+ dbname +:+ " port=" +:+ port +:+ " sslmode=disable".

(** [func main()], from its first statement to the two [go] statements. *)
Definition main_start (env : Env) : M Started :=
  let configFile := os_Getenv env configFileEnv in
  configs ← must (config_Load env configFile);

  let dsn := Sprintf_dsn (os_Getenv env dbHostEnv)
               (os_Getenv env dbUserEnv) (os_Getenv env dbPasswordEnv)
               (os_Getenv env dbNameEnv) (os_Getenv env dbPortEnv) in
  _ ← check (database_NewConnection env dsn);
  let dbConnection := {| db_dsn := dsn |} in

  _ ← check (minio_New env (os_Getenv env minioEndpointEnv)
               (os_Getenv env minioRootUserEnv)
               (os_Getenv env minioRootPasswordEnv));
  let client := {| mc_endpoint := os_Getenv env minioEndpointEnv;
                   mc_user := os_Getenv env minioRootUserEnv;
                   mc_password := os_Getenv env minioRootPasswordEnv;
                   mc_secure := false |} in

  _ ← check (amqp_Dial env (os_Getenv env rabbitMQUrlEnv));
  let connection := {| conn_url := os_Getenv env rabbitMQUrlEnv |} in
  _ ← act (push_defer (DeferConnectionClose connection));

  _ ← check (connection_Channel env connection);
  let channel := {| ch_conn := connection |} in
  _ ← act (push_defer (DeferChannelClose channel));

  err ← declareExchange env channel (os_Getenv env bucketExchangeNameEnv);
  _ ← check err;

  err ← declareExchange env channel (os_Getenv env workerExchangeNameEnv);
  _ ← check err;

  '(queue, err) ← declareAndBindQueue env channel
                    (os_Getenv env queueNameEnv)
                    (os_Getenv env bucketExchangeNameEnv);
  _ ← check err;

  let db := NewDatabase dbConnection in
  let dimensions := Thumbs_Dimensions configs in
  let publisher := NewAmpqPublisher channel (os_Getenv env workerExchangeNameEnv) in
  let bundle :=
    {| PhotoStorage := NewMinioStorage client (os_Getenv env photosBucketEnv);
       ThumbStorage := NewMinioStorage client (os_Getenv env thumbsBucketEnv);
       Database_ := db;
       Processor_ := NewImagingProcessor;
       Producer_ := NewProducer publisher;
       Dimensions := dimensions |} in
  let w := NewThumbsWorker bundle in
  let c := NewConsumer w in

  _ ← act set_notified;
  _ ← act (set_ctx_err None);
  _ ← act (set_subscriber Running);
  _ ← act (set_server Running (server_routes db));
  mret {| started_bundle := bundle;
          started_consumer := c;
          started_subscriber := NewAmqpSubscriber channel queue;
          started_publisher := publisher |}.

(** ** The running process

    What can happen once the goroutines are launched: the operating system
    delivers an interrupt; the [select] of main's loop takes one of its two
    cases; [subscriber.Subscribe] returns in its goroutine; [engine.Run]
    returns in its goroutine. *)
Inductive Action : Type :=
| Interrupt
| SelectSignals
| SelectDone
| SubscribeReturns (r : option error)
| RunReturns (r : option error).

(** One action, when it is enabled. Nothing happens in an exited process;
    [signal.Notify] does not block: a signal arriving while the channel is
    full is dropped; a [select] case is enabled when its channel is ready. *)
Definition step (a : Action) (s : State) : option State :=
  match exited s with
  | Some _ => None
  | None =>
      match a with
      | Interrupt =>
          if notified s then Some (set_signals true s) else None
      | SelectSignals =>
          if signals s
          then Some (cancel (log_Println "shutting down..." (set_signals false s)))
          else None
      | SelectDone =>
          match ctx_err s with
          | Some err => Some (log_Fatalln (Error err) s)
          | None => None
          end
      | SubscribeReturns r =>
          match subscriber s with
          | Running =>
              Some (match r with
                    | Some err => log_Println (Error err) (set_subscriber Finished s)
                    | None => set_subscriber Finished s
                    end)
          | _ => None
          end
      | RunReturns r =>
          match server s with
          | Running =>
              Some (match r with
                    | Some err => log_Fatalln (Error err) s
                    | None => set_server Finished (routes s) s
                    end)
          | _ => None
          end
      end
  end.

(** A schedule of actions, each enabled when its turn comes. *)
Fixpoint exec (acts : list Action) (s : State) : option State :=
  match acts with
  | [] => Some s
  | a :: rest =>
      match step a s with
      | Some s' => exec rest s'
      | None => None
      end
  end.

(** [func main()] under a schedule: the start-up, then the schedule if the
    start-up did not end the process. *)
Definition main (env : Env) (acts : list Action) : option State :=
  match main_start env init with
  | (Some _, s) => exec acts s
  | (None, s) => match acts with [] => Some s | _ => None end
  end.

(** The process is blocked: no case of main's [select] is ready. *)
Definition select_blocked (s : State) : Prop :=
  step SelectSignals s = None /\ step SelectDone s = None.

(** An environment in which every start-up call succeeds and the broker
    names the queue as asked. *)
Definition good_env : Env :=
  {| os_Getenv := fun k => "$" +:+ k;
     config_Load := fun _ => inl {| Thumbs_Dimensions := [100; 400] |};
     database_NewConnection := fun _ => None;
     minio_New := fun _ _ _ => None;
     amqp_Dial := fun _ => None;
     connection_Channel := fun _ => None;
     channel_ExchangeDeclare := fun _ _ _ _ _ _ => None;
     channel_QueueDeclare := fun n _ _ _ _ =>
       inl {| Name := n; Messages := 0; Consumers := 0 |};
     channel_QueueBind := fun _ _ _ _ => None |}.

(** ** Vocabulary of the properties *)

(** The database connection, the object-store client, the broker
    connection and the broker channel main opens under [env]. *)
Definition dbConnection_of (env : Env) : DbConnection :=
  {| db_dsn := Sprintf_dsn (os_Getenv env dbHostEnv)
                 (os_Getenv env dbUserEnv) (os_Getenv env dbPasswordEnv)
                 (os_Getenv env dbNameEnv) (os_Getenv env dbPortEnv) |}.

Definition client_of (env : Env) : MinioClient :=
  {| mc_endpoint := os_Getenv env minioEndpointEnv;
     mc_user := os_Getenv env minioRootUserEnv;
     mc_password := os_Getenv env minioRootPasswordEnv;
     mc_secure := false |}.

Definition connection_of (env : Env) : Connection :=
  {| conn_url := os_Getenv env rabbitMQUrlEnv |}.

Definition channel_of (env : Env) : Channel :=
  {| ch_conn := connection_of env |}.

(** A close of the broker channel or of the broker connection. *)
Definition is_close_event (e : Event) : bool :=
  match e with
  | ChannelClose _ | ConnectionClose _ => true
  | _ => false
  end.

(** A schedule without failure of a goroutine: interrupts and the cases of
    main's [select] only. *)
Definition shutdown_only (a : Action) : bool :=
  match a with
  | Interrupt | SelectSignals | SelectDone => true
  | _ => false
  end.

(** "The interrupt signal makes the process exit with status 0": in every
    run that receives an interrupt and in which no goroutine fails, an exit
    is an exit with status 0. *)
Definition interrupt_exits_zero (env : Env) : Prop :=
  forall acts s c,
    forallb shutdown_only acts = true -> In Interrupt acts ->
    main env acts = Some s -> exited s = Some c -> c = 0%Z.

(** "An error that ends the subscriber's receive loop is fatal to the
    process": once [Subscribe] has returned an error, the process has
    exited with a non-zero status or main's loop is ready to make it so. *)
Definition subscribe_error_is_fatal (env : Env) : Prop :=
  forall acts s e,
    main env (acts ++ [SubscribeReturns (Some e)]) = Some s ->
    exists c, c <> 0%Z /\
      (exited s = Some c \/
       exists s', step SelectDone s = Some s' /\ exited s' = Some c).

(** "The thumbs-bucket store is what main wires into the handler of the
    retrieval endpoint." *)
Definition handler_backed_by_thumbs_store (env : Env) : Prop :=
  forall st s,
    main_start env init = (Some st, s) ->
    exists r, r ∈ routes s /\
      route_path r = "/api/thumbs/:filename" /\
      route_handler r =
        GetThumbsHandler (BackingStorage (ThumbStorage (started_bundle st))).


Definition interrupt_run : list Action := [Interrupt; SelectSignals; SelectDone].

(** What main has built under [good_env], and the state of the process when
    main reaches its loop. *)
Definition good_started : Started :=
  let publisher := NewAmpqPublisher (channel_of good_env) "$WORKER_EXCHANGE_NAME" in
  let bundle :=
    {| PhotoStorage := NewMinioStorage (client_of good_env) "$PHOTOS_BUCKET";
       ThumbStorage := NewMinioStorage (client_of good_env) "$THUMBS_BUCKET";
       Database_ := NewDatabase (dbConnection_of good_env);
       Processor_ := NewImagingProcessor;
       Producer_ := NewProducer publisher;
       Dimensions := [100; 400] |} in
  {| started_bundle := bundle;
     started_consumer := NewConsumer (NewThumbsWorker bundle);
     started_subscriber :=
       NewAmqpSubscriber (channel_of good_env)
         {| Name := "$QUEUE_NAME"; Messages := 0; Consumers := 0 |};
     started_publisher := publisher |}.

Definition good_state : State := (main_start good_env init).2.

(** The state of the process after the interrupt has been handled. *)
Definition good_exit : State := default init (main good_env interrupt_run).

Definition channel_closed : error := Err "channel/connection is not open".

Definition address_in_use : error :=
  Err "listen tcp :8082: bind: address already in use".

(** ** Vocabulary of the further properties *)

(** A call on the broker channel. *)
Definition is_broker_call (e : Event) : bool :=
  match e with
  | ExchangeDeclare _ _ _ _ _ _ | QueueDeclare _ _ _ _ _ | QueueBind _ _ _ _ => true
  | _ => false
  end.

(** Neither an interrupt nor an error of [engine.Run]. *)
Definition quiet (a : Action) : bool :=
  match a with
  | Interrupt | RunReturns (Some _) => false
  | _ => true
  end.

(** Every call of the start-up succeeds under [env]. *)
Definition startup_calls_succeed (env : Env) : Prop :=
  (exists configs, config_Load env (os_Getenv env configFileEnv) = inl configs) /\
  database_NewConnection env (db_dsn (dbConnection_of env)) = None /\
  minio_New env (os_Getenv env minioEndpointEnv) (os_Getenv env minioRootUserEnv)
    (os_Getenv env minioRootPasswordEnv) = None /\
  amqp_Dial env (os_Getenv env rabbitMQUrlEnv) = None /\
  connection_Channel env (connection_of env) = None /\
  channel_ExchangeDeclare env (os_Getenv env bucketExchangeNameEnv)
    fanoutExchangeKind true false false false = None /\
  channel_ExchangeDeclare env (os_Getenv env workerExchangeNameEnv)
    fanoutExchangeKind true false false false = None /\
  exists q,
    channel_QueueDeclare env (os_Getenv env queueNameEnv) true false false false = inl q /\
    channel_QueueBind env (Name q) "" (os_Getenv env bucketExchangeNameEnv) false = None.

(** [good_env] with some of its answers replaced. *)
Definition with_broker (env : Env)
    (exchangeDeclare : string -> string -> bool -> bool -> bool -> bool -> option error)
    (queueDeclare : string -> bool -> bool -> bool -> bool -> Queue + error)
    (queueBind : string -> string -> string -> bool -> option error) : Env :=
  {| os_Getenv := os_Getenv env;
     config_Load := config_Load env;
     database_NewConnection := database_NewConnection env;
     minio_New := minio_New env;
     amqp_Dial := amqp_Dial env;
     connection_Channel := connection_Channel env;
     channel_ExchangeDeclare := exchangeDeclare;
     channel_QueueDeclare := queueDeclare;
     channel_QueueBind := queueBind |}.

(** A broker that refuses the queue. *)
Definition queue_refused_env : Env :=
  with_broker good_env (channel_ExchangeDeclare good_env)
    (fun _ _ _ _ _ => inr (Err "PRECONDITION_FAILED - inequivalent arg 'durable'"))
    (channel_QueueBind good_env).

(** A broker that names the queue itself. *)
Definition broker_named_env : Env :=
  with_broker good_env (channel_ExchangeDeclare good_env)
    (fun _ _ _ _ _ => inl {| Name := "amq.gen-JzTY20BRgKO"; Messages := 3; Consumers := 0 |})
    (channel_QueueBind good_env).


Definition broker_named_state : State := (main_start broker_named_env init).2.

Definition refused_state : State := (main_start queue_refused_env init).2.

(** A run in which the subscriber fails and the server stops without an
    error, and the state it leaves. *)
Definition idle_run : list Action :=
  [SubscribeReturns (Some channel_closed); RunReturns None].

Definition idle_state : State := default init (main good_env idle_run).

End Main.

(* ===================================================================== *)
(** * The object store adapter: Put and Get *)
(* ===================================================================== *)

Section BucketFacts.
Import Bucket.

(** What [io.Copy] leaves behind: the bucket's objects and oracle are
    untouched, the writer keeps its name, and the backend has received
    nothing but writes. *)
Lemma copy_chunks_frame chunks : forall w rerr n h,
  let '(_, _, w', h') := copy_chunks w chunks rerr n h in
  objects h' = objects h /\ oracle h' = oracle h /\ w_name w' = w_name w /\
  exists cs, calls h' = calls h ++ cs /\ forallb is_write cs = true.
Proof.
  induction chunks as [|p rest IH]; intros w rerr n h; simpl.
  - repeat split; try reflexivity. exists []. by rewrite app_nil_r.
  - destruct p as [|b p].
    + apply IH.
    + unfold Write at 1. destruct (fault _ h) as [e|] eqn:Hf; simpl.
      * repeat split; try reflexivity. by exists [CWrite (w_name w) (b :: p)].
      * specialize (IH {| w_name := w_name w; w_buf := w_buf w ++ b :: p |}
                       rerr (n + S (length p)) (record (CWrite (w_name w) (b :: p)) h)).
        destruct (copy_chunks _ rest rerr _ _) as [[[n' e'] w'] h'].
        destruct IH as (Ho & Hor & Hn & cs & Hc & Hw).
        repeat split; try assumption.
        exists (CWrite (w_name w) (b :: p) :: cs). split.
        -- rewrite Hc. simpl. by rewrite <- app_assoc.
        -- simpl. exact Hw.
Qed.

(** A copy that reports no error met no error of the source either, and
    the writer then holds every byte of the source. *)
Lemma copy_chunks_complete chunks : forall w rerr n h n' w' h',
  copy_chunks w chunks rerr n h = (n', None, w', h') ->
  rerr = None /\ w_buf w' = w_buf w ++ concat chunks.
Proof.
  induction chunks as [|p rest IH]; intros w rerr n h n' w' h' H; simpl in H.
  - inversion H; subst. split; [reflexivity | by rewrite app_nil_r].
  - destruct p as [|b p].
    + apply IH in H. exact H.
    + unfold Write in H. destruct (fault _ h) as [e|]; simpl in H.
      * discriminate.
      * apply IH in H. destruct H as [-> Hb]. split; [reflexivity|].
        rewrite Hb. simpl. by rewrite <- app_assoc.
Qed.

(** [Put] on concrete buckets: a backend that fails writes, a backend that
    fails the close, a source that fails, and a backend that does not
    fail. *)
Example Put_write_fails :
  let r := Put (flaky is_write (Err "write: broken pipe")) thumb_v1 in
  r.1 = Some (Err "write: broken pipe") /\
  calls (handle r.2) =
    [CNewWriter "photo123_100.jpg"; CWrite "photo123_100.jpg" [x89; x50]] /\
  objects (handle r.2) = ∅.
Proof. vm_compute. auto. Qed.

Example Put_close_fails :
  let r := Put (flaky is_close (Err "googleapi: 503")) thumb_v1 in
  r.1 = Some (Err "googleapi: 503") /\
  calls (handle r.2) =
    [CNewWriter "photo123_100.jpg"; CWrite "photo123_100.jpg" [x89; x50];
     CWrite "photo123_100.jpg" [x4e; x47]; CClose "photo123_100.jpg"] /\
  objects (handle r.2) = ∅.
Proof. vm_compute. auto. Qed.

Example Put_source_fails :
  let r := Put (reliable ∅) thumb_truncated in
  r.1 = Some (Err "unexpected EOF") /\
  calls (handle r.2) =
    [CNewWriter "photo123_400.jpg"; CWrite "photo123_400.jpg" [x89; x50]] /\
  objects (handle r.2) = ∅.
Proof. vm_compute. auto. Qed.

Example Put_succeeds :
  let r := Put (reliable ∅) thumb_v1 in
  r.1 = None /\
  map_to_list (objects (handle r.2)) =
    [("photo123_100.jpg", [x89; x50; x4e; x47])].
Proof. vm_compute. auto. Qed.

Example Get_missing :
  (Get (reliable ∅) "photo123_100.jpg").1 = inr ErrObjectNotExist.
Proof. reflexivity. Qed.

(** The effect of [Put] in each of its three endings. *)
Lemma Put_cases s image :
  match copy_err s image with
  | Some e =>
      (Put s image).1 = Some e /\
      objects (handle (Put s image).2) = objects (handle s) /\
      exists cs, calls (handle (Put s image).2) =
                   calls (handle s) ++ CNewWriter (Filename image) :: cs /\
                 forallb is_write cs = true
  | None =>
      (Put s image).1 = close_err s image /\
      r_err (Reader image) = None /\
      objects (handle (Put s image).2) =
        match close_err s image with
        | None => <[Filename image := content (Reader image)]> (objects (handle s))
        | Some _ => objects (handle s)
        end /\
      exists cs, calls (handle (Put s image).2) =
                   calls (handle s) ++ CNewWriter (Filename image) :: cs
                     ++ [CClose (Filename image)] /\
                 forallb is_write cs = true
  end /\ oracle (handle (Put s image).2) = oracle (handle s).
Proof.
  unfold copy_err, close_err, Put, io_Copy, NewWriter.
  set (w0 := {| w_name := Filename image; w_buf := [] |}).
  set (h1 := record (CNewWriter (Filename image)) (handle s)).
  pose proof (copy_chunks_frame (r_chunks (Reader image)) w0 (r_err (Reader image)) 0 h1) as Hf.
  pose proof (copy_chunks_complete (r_chunks (Reader image)) w0 (r_err (Reader image)) 0 h1) as Hc.
  destruct (copy_chunks w0 _ _ 0 h1) as [[[n e] w'] h2].
  destruct Hf as (Ho & Hor & Hn & cs & Hcs & Hw).
  destruct e as [e|]; simpl.
  - repeat split; try assumption. exists cs. split; [|exact Hw].
    rewrite Hcs. subst h1. simpl. by rewrite <- app_assoc.
  - destruct (Hc n w' h2 eq_refl) as [Hr Hb]. simpl in Hb.
    unfold Close, fault. rewrite Hn. subst w0; simpl.
    destruct (oracle h2 _) as [e|]; simpl.
    + repeat split; try assumption. exists cs. split; [|exact Hw].
      rewrite Hcs. subst h1. simpl. rewrite <- !app_assoc. reflexivity.
    + repeat split; try assumption.
      * rewrite Ho, Hb. reflexivity.
      * exists cs. split; [|exact Hw].
        rewrite Hcs. subst h1. simpl. rewrite <- !app_assoc. reflexivity.
Qed.

(** A successful [Put] commits the whole content under the filename. *)
Lemma Put_ok s image s' :
  Put s image = (None, s') ->
  objects (handle s') = <[Filename image := content (Reader image)]> (objects (handle s)) /\
  oracle (handle s') = oracle (handle s).
Proof.
  intros H. pose proof (Put_cases s image) as [Hc Hor].
  rewrite H in Hc, Hor. simpl in Hc, Hor. split; [|exact Hor].
  destruct (copy_err s image) as [e|].
  - destruct Hc as [He _]. discriminate.
  - destruct Hc as (He & _ & Ho & _). rewrite <- He in Ho. exact Ho.
Qed.

(** The calls of one [Put] are what it appends to the backend's record. *)
Lemma Put_calls s image :
  calls (handle (Put s image).2) = calls (handle s) ++ calls_of_Put s image.
Proof.
  unfold calls_of_Put. pose proof (Put_cases s image) as [Hc _].
  destruct (copy_err s image).
  - destruct Hc as (_ & _ & cs & -> & _). by rewrite drop_app_length.
  - destruct Hc as (_ & _ & _ & cs & -> & _). by rewrite drop_app_length.
Qed.

(** C5. [Put] returns success exactly when the copy of the whole stream to
    the backend writer and the close of that writer both succeed; a copy
    error is returned as it is, and so is a close error; and when [Put]
    reports success the whole content has been committed under the
    filename, the close being the last call the backend received. *)
Theorem Put_success_iff_copy_and_close (s : Bucket) (image : Thumbnail) :
  ((Put s image).1 = None <-> copy_err s image = None /\ close_err s image = None) /\
  (forall e, copy_err s image = Some e -> (Put s image).1 = Some e) /\
  (forall e, copy_err s image = None -> close_err s image = Some e ->
             (Put s image).1 = Some e) /\
  ((Put s image).1 = None ->
     r_err (Reader image) = None /\
     objects (handle (Put s image).2) !! Filename image = Some (content (Reader image)) /\
     last (calls (handle (Put s image).2)) = Some (CClose (Filename image))).
Proof.
  pose proof (Put_cases s image) as [Hc _].
  destruct (copy_err s image) as [e|] eqn:Hcopy.
  - destruct Hc as (He & _). rewrite He.
    split; [split; [discriminate | intros [? _]; discriminate]|].
    split; [intros e' [= ->]; reflexivity|].
    split; discriminate.
  - destruct Hc as (He & Hr & Ho & cs & Hcs & _). rewrite He.
    split; [split; [intros H; by split | intros [_ H]; exact H]|].
    split; [discriminate|].
    split; [intros e _ H; exact H|].
    intros H. split; [exact Hr|]. split.
    + rewrite Ho, H. apply lookup_insert_eq.
    + rewrite Hcs. rewrite app_comm_cons, app_assoc. apply last_snoc.
Qed.

(** C9. When the copy of the input stream to the backend writer fails,
    [Put] returns the copy error, the backend receives no close during that
    [Put] and the bucket's objects are unchanged; when the copy succeeds,
    the close is the last call of that [Put]. *)
Theorem Put_closes_only_after_copy (s : Bucket) (image : Thumbnail) :
  match copy_err s image with
  | Some e =>
      (Put s image).1 = Some e /\
      existsb is_close (calls_of_Put s image) = false /\
      objects (handle (Put s image).2) = objects (handle s)
  | None =>
      last (calls_of_Put s image) = Some (CClose (Filename image))
  end.
Proof.
  pose proof (Put_cases s image) as [Hc _]. unfold calls_of_Put.
  destruct (copy_err s image) as [e|].
  - destruct Hc as (He & Ho & cs & Hcs & Hw). repeat split; try assumption.
    rewrite Hcs, drop_app_length. simpl.
    clear -Hw. induction cs as [|c cs IH]; [reflexivity|].
    simpl in *. apply andb_prop in Hw as [Hc Hw].
    rewrite (IH Hw). by destruct c.
  - destruct Hc as (_ & _ & _ & cs & Hcs & _).
    rewrite Hcs, drop_app_length.
    rewrite app_comm_cons. apply last_snoc.
Qed.

(** No binding is found under a key the list does not bind. *)
Lemma filter_key_absent (f : string) (l : list (string * list byte)) :
  f ∉ l.*1 -> filter (fun kv => kv.1 = f) l = [].
Proof.
  induction l as [|[k v] l IH]; intros Hf; [reflexivity|].
  simpl in Hf. apply not_elem_of_cons in Hf as [Hne Hf].
  rewrite filter_cons_False by (simpl; congruence). by apply IH.
Qed.

(** A list of bindings with distinct keys has exactly one binding under a
    key it binds. *)
Lemma filter_key_unique (f : string) (c : list byte) (l : list (string * list byte)) :
  NoDup l.*1 -> (f, c) ∈ l -> filter (fun kv => kv.1 = f) l = [(f, c)].
Proof.
  induction l as [|[k v] l IH]; intros Hnd Hin.
  - by apply elem_of_nil in Hin.
  - simpl in Hnd. apply NoDup_cons in Hnd as [Hk Hnd].
    destruct (decide (k = f)) as [->|Hne].
    + rewrite filter_cons_True by reflexivity.
      rewrite (filter_key_absent f l Hk).
      apply elem_of_cons in Hin as [[= ->]|Hin]; [reflexivity|].
      exfalso. apply Hk. apply list_elem_of_fmap. by exists (f, c).
    + rewrite filter_cons_False by (simpl; congruence).
      apply IH; [exact Hnd|].
      apply elem_of_cons in Hin as [[= ? ?]|Hin]; [congruence | exact Hin].
Qed.

(** C7. A [Put] under filename [f] followed by a successful [Put] of
    content [b2] under the same [f] leaves exactly one stored object under
    key [f], and its content is [b2]: the second write replaces the first,
    whatever the first one wrote. *)
Theorem Put_twice_overwrites (s s1 s2 : Bucket) (f : string)
    (r1 r2 : io_Reader) (e1 : option error) :
  Put s {| Filename := f; Reader := r1 |} = (e1, s1) ->
  Put s1 {| Filename := f; Reader := r2 |} = (None, s2) ->
  stored_under f s2 = [(f, content r2)] /\
  objects (handle s2) !! f = Some (content r2).
Proof.
  intros _ H2. apply Put_ok in H2 as [Ho _]. simpl in Ho.
  assert (objects (handle s2) !! f = Some (content r2)) as Hl.
  { rewrite Ho. apply lookup_insert_eq. }
  split; [|exact Hl].
  unfold stored_under. apply filter_key_unique.
  - apply NoDup_fst_map_to_list.
  - by apply elem_of_map_to_list.
Qed.

(** The round trip of the adapter. After a successful [Put] of a stream
    under a filename, [Get] of that filename yields a reader that delivers
    exactly the bytes of the stream and then ends without error; the only
    other outcome of [Get] is the error the backend raises for the read
    request itself. *)
Lemma Put_then_Get_roundtrip (s s' : Bucket) (image : Thumbnail) :
  Put s image = (None, s') ->
  match (Get s' (Filename image)).1 with
  | inl rd => io_ReadAll rd = (content (Reader image), None)
  | inr e => fault (CNewReader (Filename image)) (handle s') = Some e
  end.
Proof.
  intros H. apply Put_ok in H as [Ho _].
  unfold Get, NewReader.
  destruct (fault _ (handle s')) as [e|]; simpl; [reflexivity|].
  rewrite Ho, lookup_insert_eq. simpl.
  unfold io_ReadAll, content, bytes_NewReader. simpl. by rewrite app_nil_r.
Qed.

Lemma Put_twice_overwrites_witness :
  Put (reliable ∅) thumb_v1 = (None, bucket_v1) /\
  Put bucket_v1 thumb_v2 = (None, bucket_v2) /\
  stored_under "photo123_100.jpg" bucket_v2 =
    [("photo123_100.jpg", [xff; xd8; xff])] /\
  objects (handle bucket_v2) !! "photo123_100.jpg" = Some [xff; xd8; xff].
Proof.
  split; [vm_compute; reflexivity|]. split; [vm_compute; reflexivity|].
  apply (Put_twice_overwrites (reliable ∅) bucket_v1 bucket_v2
           "photo123_100.jpg" (Reader thumb_v1) (Reader thumb_v2) None);
    vm_compute; reflexivity.
Defined.

Lemma Put_then_Get_roundtrip_witness :
  Put (reliable ∅) thumb_v1 = (None, bucket_v1) /\
  match (Get bucket_v1 "photo123_100.jpg").1 with
  | inl rd => io_ReadAll rd = ([x89; x50; x4e; x47], None)
  | inr e => fault (CNewReader "photo123_100.jpg") (handle bucket_v1) = Some e
  end.
Proof.
  split; [vm_compute; reflexivity|].
  apply (Put_then_Get_roundtrip (reliable ∅) bucket_v1 thumb_v1).
  vm_compute; reflexivity.
Defined.

End BucketFacts.

(* ===================================================================== *)
(** * The lifecycle controller *)
(* ===================================================================== *)

Section MainFacts.
Import Main.

Ltac start_unfold :=
  unfold main_start, mbind, M_bind, must, check, fatal, act, mret, M_ret,
    declareExchange, declareAndBindQueue, Channel_ExchangeDeclare,
    Channel_QueueDeclare, Channel_QueueBind.

(** The two outcomes of the start-up. When it succeeds, the broker has
    received the four topology calls and nothing else has been observed;
    when it fails, the process has exited with status 1 and nothing was
    closed. *)
Lemma main_start_outcome env :
  match main_start env init with
  | (Some st, s) =>
      exists q,
        channel_QueueDeclare env (os_Getenv env queueNameEnv) true false false false = inl q /\
        started_subscriber st = NewAmqpSubscriber (channel_of env) q /\
        trace s =
          [ ExchangeDeclare (os_Getenv env bucketExchangeNameEnv) "fanout" true false false false;
            ExchangeDeclare (os_Getenv env workerExchangeNameEnv) "fanout" true false false false;
            QueueDeclare (os_Getenv env queueNameEnv) true false false false;
            QueueBind (Name q) "" (os_Getenv env bucketExchangeNameEnv) false ] /\
        defers s = [ DeferChannelClose (channel_of env);
                     DeferConnectionClose (connection_of env) ] /\
        signals s = false /\ ctx_err s = None /\ notified s = true /\
        subscriber s = Running /\ server s = Running /\ exited s = None /\
        routes s = server_routes (NewDatabase (dbConnection_of env)) /\
        Database_ (started_bundle st) = NewDatabase (dbConnection_of env) /\
        ThumbStorage (started_bundle st) =
          NewMinioStorage (client_of env) (os_Getenv env thumbsBucketEnv)
  | (None, s) =>
      exited s = Some 1%Z /\ existsb is_close_event (trace s) = false /\
      ctx_err s = None
  end.
Proof.
  start_unfold.
  destruct (config_Load env _) as [configs|e]; [|repeat split; reflexivity].
  destruct (database_NewConnection env _) as [e|]; [repeat split; reflexivity|].
  destruct (minio_New env _ _ _) as [e|]; [repeat split; reflexivity|].
  destruct (amqp_Dial env _) as [e|]; [repeat split; reflexivity|].
  destruct (connection_Channel env _) as [e|]; [repeat split; reflexivity|].
  cbn.
  destruct (channel_ExchangeDeclare env (os_Getenv env bucketExchangeNameEnv) _ _ _ _ _)
    as [e|]; [repeat split; reflexivity|].
  destruct (channel_ExchangeDeclare env (os_Getenv env workerExchangeNameEnv) _ _ _ _ _)
    as [e|]; [repeat split; reflexivity|].
  start_unfold.
  destruct (channel_QueueDeclare env _ _ _ _ _) as [q|e] eqn:Hq; [|repeat split; reflexivity].
  destruct (channel_QueueBind env _ _ _ _) as [e|]; [repeat split; reflexivity|].
  exists q. cbn. repeat split; reflexivity.
Qed.

(** main on concrete runs: the interrupt, a failure of the subscriber, a
    failure of the server, and a start-up that cannot reach the broker. *)
Example main_interrupt :
  (trace <$> main good_env interrupt_run) =
    Some (trace good_state ++
          [LogPrint "shutting down..."; ContextCancel;
           LogPrint "context canceled"; OsExit 1]) /\
  (exited <$> main good_env interrupt_run) = Some (Some 1%Z).
Proof. vm_compute. auto. Qed.

Example main_subscriber_fails :
  (trace <$> main good_env [SubscribeReturns (Some channel_closed)]) =
    Some (trace good_state ++ [LogPrint "channel/connection is not open"]) /\
  (exited <$> main good_env [SubscribeReturns (Some channel_closed)]) = Some None /\
  main good_env [SubscribeReturns (Some channel_closed); SelectDone] = None.
Proof. vm_compute. auto. Qed.

Example main_server_fails :
  (exited <$> main good_env [RunReturns (Some address_in_use)]) = Some (Some 1%Z) /\
  main good_env [RunReturns (Some address_in_use); Interrupt] = None.
Proof. vm_compute. auto. Qed.

Example main_channel_refused :
  let env :=
    {| os_Getenv := os_Getenv good_env;
       config_Load := config_Load good_env;
       database_NewConnection := database_NewConnection good_env;
       minio_New := minio_New good_env;
       amqp_Dial := amqp_Dial good_env;
       connection_Channel := fun _ => Some (Err "channel max reached");
       channel_ExchangeDeclare := channel_ExchangeDeclare good_env;
       channel_QueueDeclare := channel_QueueDeclare good_env;
       channel_QueueBind := channel_QueueBind good_env |} in
  (trace <$> main env []) = Some [LogPrint "channel max reached"; OsExit 1] /\
  (defers <$> main env []) = Some [DeferConnectionClose (connection_of good_env)].
Proof. vm_compute. auto. Qed.

(** ** One action *)

Ltac step_cases H :=
  unfold step in H; cbn in H;
  repeat match type of H with
         | context [match ?x with _ => _ end] => destruct x eqn:?; try discriminate H
         end;
  try (injection H as <-).

(** An action adds no close of the channel or of the connection to the
    trace, and leaves the process running or exited with status 1. *)
Lemma step_invariant a s s' :
  step a s = Some s' ->
  existsb is_close_event (trace s') = existsb is_close_event (trace s) /\
  (exited s' = None \/ exited s' = Some 1%Z) /\
  exited s = None /\
  defers s' = defers s /\ notified s' = notified s.
Proof.
  intros H. step_cases H; unfold cancel; simpl;
    repeat match goal with
           | |- context [match ?x with _ => _ end] => destruct x eqn:?
           end; simpl;
    rewrite ?existsb_app; simpl; rewrite ?orb_false_r; auto 10.
Qed.

Lemma exec_app acts1 : forall acts2 s,
  exec (acts1 ++ acts2) s =
    match exec acts1 s with
    | Some s' => exec acts2 s'
    | None => None
    end.
Proof.
  induction acts1 as [|a acts1 IH]; intros acts2 s; simpl; [reflexivity|].
  destruct (step a s); [apply IH | reflexivity].
Qed.

Lemma exec_invariant acts : forall s s',
  exec acts s = Some s' ->
  existsb is_close_event (trace s') = existsb is_close_event (trace s) /\
  ((exited s = None \/ exited s = Some 1%Z) ->
   (exited s' = None \/ exited s' = Some 1%Z)) /\
  defers s' = defers s /\ notified s' = notified s.
Proof.
  induction acts as [|a acts IH]; intros s s' H; simpl in H.
  - injection H as <-. auto.
  - destruct (step a s) as [s1|] eqn:Hs; [|discriminate].
    apply step_invariant in Hs as (Hc & He & _ & Hd & Hn).
    apply IH in H as (Hc' & He' & Hd' & Hn').
    split; [congruence|]. split; [auto|]. split; congruence.
Qed.

(** The context's error is [context.Canceled] or nothing. *)
Lemma exec_ctx_err acts : forall s s',
  exec acts s = Some s' ->
  (ctx_err s = None \/ ctx_err s = Some Canceled) ->
  (ctx_err s' = None \/ ctx_err s' = Some Canceled).
Proof.
  induction acts as [|a acts IH]; intros s s' H Hs; simpl in H.
  - by injection H as <-.
  - destruct (step a s) as [s1|] eqn:Hs1; [|discriminate].
    apply (IH _ _ H). clear H IH.
    step_cases Hs1; unfold cancel; simpl in *; auto;
      repeat match goal with
             | |- context [match ?x with _ => _ end] => destruct x eqn:?
             end; simpl; auto; intuition congruence.
Qed.

(** The context is done only after an interrupt. *)
Lemma exec_ctx_done_interrupt acts : forall s s',
  exec acts s = Some s' ->
  signals s = false -> ctx_err s = None ->
  ctx_err s' <> None -> In Interrupt acts.
Proof.
  induction acts as [|a acts IH]; intros s s' H Hsig Hctx Hdone; simpl in H.
  - injection H as <-. contradiction.
  - destruct (step a s) as [s1|] eqn:Hs1; [|discriminate].
    destruct a; [by left|..]; right;
      (apply (IH _ _ H); [| |exact Hdone]; clear H IH;
       step_cases Hs1; simpl in *; congruence).
Qed.

(** A run of main is the start-up followed by the schedule, or a failed
    start-up and nothing more. *)
Lemma main_running env acts s :
  main env acts = Some s ->
  (exists st s0, main_start env init = (Some st, s0) /\ exec acts s0 = Some s) \/
  (acts = [] /\ main_start env init = (None, s)).
Proof.
  unfold main. destruct (main_start env init) as [[st|] s0] eqn:Hst.
  - intros H. left. eauto.
  - destruct acts; [|discriminate]. intros [= <-]. right. eauto.
Qed.

(** A run of main extended by one more enabled action. *)
Lemma main_snoc env acts s a s' :
  main env acts = Some s -> step a s = Some s' ->
  main env (acts ++ [a]) = Some s'.
Proof.
  intros H Hs. pose proof Hs as Hlive. apply step_invariant in Hlive as (_ & _ & Hlive & _).
  destruct (main_running _ _ _ H) as [(st & s0 & Hst & He)|[-> Hst]].
  - unfold main. rewrite Hst, exec_app, He. simpl. by rewrite Hs.
  - pose proof (main_start_outcome env) as Ho. rewrite Hst in Ho.
    destruct Ho as [Ho _]. congruence.
Qed.

(** No run of main closes the broker channel or the broker connection, and
    no run exits with a status other than 1. *)
Lemma main_invariant env acts s :
  main env acts = Some s ->
  existsb is_close_event (trace s) = false /\
  (exited s = None \/ exited s = Some 1%Z).
Proof.
  intros H. pose proof (main_start_outcome env) as Ho.
  destruct (main_running _ _ _ H) as [(st & s0 & Hst & He)|[-> Hst]];
    rewrite Hst in Ho.
  - destruct Ho as (q & _ & _ & Ht & _ & _ & _ & _ & _ & _ & Hex & _).
    apply exec_invariant in He as (Hc & Hx & _). split.
    + rewrite Hc, Ht. reflexivity.
    + apply Hx. by left.
  - destruct Ho as (Hx & Hc & _). split; [exact Hc | by right].
Qed.

(** Had main returned, its deferred functions would have closed the
    channel and then the connection. *)
Lemma return_from_main_closes env st s :
  main_start env init = (Some st, s) ->
  trace (return_from_main s) =
    trace s ++ [ ChannelClose (channel_of env);
                 ConnectionClose (connection_of env); OsExit 0 ].
Proof.
  intros H. pose proof (main_start_outcome env) as Ho. rewrite H in Ho.
  destruct Ho as (q & _ & _ & _ & Hd & _).
  unfold return_from_main. rewrite Hd. simpl. by rewrite <- !app_assoc.
Qed.

(** ** C6: the topology *)

(** What [declareExchange] asks of the broker. *)
Lemma declareExchange_call env ch name s :
  declareExchange env ch name s =
    (Some (channel_ExchangeDeclare env name "fanout" true false false false),
     emit (ExchangeDeclare name "fanout" true false false false) s).
Proof. reflexivity. Qed.

(** What [declareAndBindQueue] asks of the broker: the declaration, and the
    binding when the declaration succeeded. *)
Lemma declareAndBindQueue_calls env ch queue exchange s :
  declareAndBindQueue env ch queue exchange s =
    match channel_QueueDeclare env queue true false false false with
    | inl q =>
        (Some (q, channel_QueueBind env (Name q) "" exchange false),
         emit (QueueBind (Name q) "" exchange false)
           (emit (QueueDeclare queue true false false false) s))
    | inr err =>
        (Some (Queue_zero, Some err),
         emit (QueueDeclare queue true false false false) s)
    end.
Proof.
  unfold declareAndBindQueue, mbind, M_bind, Channel_QueueDeclare, Channel_QueueBind.
  by destruct (channel_QueueDeclare env queue true false false false).
Qed.

(** C6. When the start-up completes, the broker has been asked for exactly
    this, in this order: the inbound (bucket) exchange and the outbound
    (worker) exchange, both of kind fanout, durable and not auto-deleted;
    one queue, durable, not auto-deleted and not exclusive; and one binding
    of that queue, under the name the broker gave it, to the inbound
    exchange with the empty routing key. *)
Theorem topology_declared (env : Env) (st : Started) (s : State) :
  main_start env init = (Some st, s) ->
  exists q,
    channel_QueueDeclare env (os_Getenv env queueNameEnv) true false false false = inl q /\
    trace s =
      [ ExchangeDeclare (os_Getenv env bucketExchangeNameEnv) "fanout" true false false false;
        ExchangeDeclare (os_Getenv env workerExchangeNameEnv) "fanout" true false false false;
        QueueDeclare (os_Getenv env queueNameEnv) true false false false;
        QueueBind (Name q) "" (os_Getenv env bucketExchangeNameEnv) false ].
Proof.
  intros H. pose proof (main_start_outcome env) as Ho. rewrite H in Ho.
  destruct Ho as (q & Hq & _ & Ht & _). eauto.
Qed.

(** ** C4: the retrieval endpoint *)

(** C4, as amended. When the start-up completes, the server has one route,
    GET /api/thumbs/:filename, and its handler is built over the image
    database, the one made from the database connection and also given to
    the worker bundle; the thumbs-bucket store is in the worker bundle and
    is not what the handler is built over. *)
Theorem handler_backed_by_database (env : Env) (st : Started) (s : State) :
  main_start env init = (Some st, s) ->
  routes s =
    [ {| route_method := "GET";
         route_path := "/api/thumbs/:filename";
         route_handler :=
           GetThumbsHandler (BackingDatabase (Database_ (started_bundle st))) |} ] /\
  Database_ (started_bundle st) = NewDatabase (dbConnection_of env) /\
  ThumbStorage (started_bundle st) =
    NewMinioStorage (client_of env) (os_Getenv env thumbsBucketEnv) /\
  forall r, r ∈ routes s ->
    route_handler r <>
      GetThumbsHandler (BackingStorage (ThumbStorage (started_bundle st))).
Proof.
  intros H. pose proof (main_start_outcome env) as Ho. rewrite H in Ho.
  destruct Ho as (q & _ & _ & _ & _ & _ & _ & _ & _ & _ & _ & Hr & Hdb & Hth).
  rewrite Hr, Hdb. unfold server_routes. repeat split; try assumption.
  intros r Hin. apply list_elem_of_singleton in Hin as ->. discriminate.
Qed.

(** ** C1, C2, C3, C10: the running process *)

(** In a run of main that has not exited, the start-up is complete and
    the interrupt is routed to the channel. *)
Lemma main_live env acts s :
  main env acts = Some s -> exited s = None -> notified s = true.
Proof.
  intros H Hx. pose proof (main_start_outcome env) as Ho.
  destruct (main_running _ _ _ H) as [(st & s0 & Hst & He)|[-> Hst]];
    rewrite Hst in Ho.
  - destruct Ho as (q & _ & _ & _ & _ & _ & _ & Hn & _).
    pose proof (exec_invariant _ _ _ He) as (_ & _ & _ & Hn'). congruence.
  - destruct Ho as [Ho _]. congruence.
Qed.

(** In a run of main the shared context is not done, or it is cancelled
    and an interrupt has arrived. *)
Lemma main_ctx env acts s :
  main env acts = Some s ->
  (ctx_err s = None \/ ctx_err s = Some Canceled) /\
  (ctx_err s <> None -> In Interrupt acts).
Proof.
  intros H. pose proof (main_start_outcome env) as Ho.
  destruct (main_running _ _ _ H) as [(st & s0 & Hst & He)|[-> Hst]];
    rewrite Hst in Ho.
  - destruct Ho as (q & _ & _ & _ & _ & Hsig & Hctx & _). split.
    + apply (exec_ctx_err _ _ _ He). by left.
    + by apply (exec_ctx_done_interrupt _ _ _ He).
  - destruct Ho as (_ & _ & Hctx). split; [by left | congruence].
Qed.

(** C1, as amended. In every run of main: the process never exits with
    status 0, an exit is an exit with status 1; the shared context is done
    only by cancellation, after an interrupt; and while the process runs, an
    interrupt is accepted without anything being observed yet, main's loop
    then logs "shutting down..." and cancels the shared context, the done
    context is the only thing the loop can observe next, and observing it
    logs "context canceled" and exits the process with status 1, the exit
    being the last thing observed. *)
Theorem interrupt_cancels_then_exit_1 (env : Env) (acts : list Action) (s : State) :
  main env acts = Some s ->
  (forall c, exited s = Some c -> c = 1%Z) /\
  (forall e, ctx_err s = Some e -> e = Canceled /\ In Interrupt acts) /\
  (exited s = None ->
     exists s1 s2 s3,
       step Interrupt s = Some s1 /\ trace s1 = trace s /\
       step SelectSignals s1 = Some s2 /\
       (exists evs, trace s2 = trace s1 ++ evs /\
                    In (LogPrint "shutting down...") evs) /\
       ctx_err s2 = Some Canceled /\ exited s2 = None /\
       step SelectSignals s2 = None /\
       step SelectDone s2 = Some s3 /\
       (exists evs, trace s3 = trace s2 ++ evs /\
                    In (LogPrint "context canceled") evs /\
                    last evs = Some (OsExit 1)) /\
       exited s3 = Some 1%Z /\
       main env (acts ++ interrupt_run) = Some s3).
Proof.
  intros H. split; [|split].
  - intros c Hc. apply main_invariant in H as [_ [Hx|Hx]]; congruence.
  - intros e He. destruct (main_ctx _ _ _ H) as [Hctx Hint].
    split; [destruct Hctx; congruence | apply Hint; congruence].
  - intros Hx. pose proof (main_live _ _ _ H Hx) as Hn.
    destruct (main_ctx _ _ _ H) as [Hctx _].
    assert (step Interrupt s = Some (set_signals true s)) as H1.
    { unfold step. by rewrite Hx, Hn. }
    set (s1 := set_signals true s) in *.
    set (s2 := cancel (log_Println "shutting down..." (set_signals false s1))).
    assert (step SelectSignals s1 = Some s2) as H2.
    { unfold step. subst s1. simpl. by rewrite Hx. }
    assert (ctx_err s2 = Some Canceled /\ exited s2 = None /\ signals s2 = false)
      as (Hc2 & Hx2 & Hs2).
    { subst s2 s1. unfold cancel. simpl.
      destruct Hctx as [Hc | Hc]; rewrite Hc; simpl; repeat split; auto. }
    assert (exists evs, trace s2 = trace s1 ++ evs /\
                        In (LogPrint "shutting down...") evs) as Ht2.
    { subst s2 s1. unfold cancel. simpl.
      destruct Hctx as [Hc | Hc]; rewrite Hc; simpl.
      - exists [LogPrint "shutting down..."; ContextCancel].
        split; [by rewrite <- app_assoc | by left].
      - exists [LogPrint "shutting down..."]. split; [reflexivity | by left]. }
    set (s3 := log_Fatalln (Error Canceled) s2).
    assert (step SelectDone s2 = Some s3) as H3.
    { unfold step. by rewrite Hx2, Hc2. }
    assert (main env (acts ++ interrupt_run) = Some s3) as Hrun.
    { unfold interrupt_run.
      change [Interrupt; SelectSignals; SelectDone]
        with ([Interrupt] ++ [SelectSignals] ++ [SelectDone]).
      rewrite !app_assoc.
      eauto using main_snoc. }
    exists s1, s2, s3.
    split; [exact H1|]. split; [reflexivity|]. split; [exact H2|].
    split; [exact Ht2|]. split; [exact Hc2|]. split; [exact Hx2|].
    split; [unfold step; by rewrite Hx2, Hs2|]. split; [exact H3|].
    split; [|split; [reflexivity | exact Hrun]].
    exists [LogPrint "context canceled"; OsExit 1].
    split; [|split; [by left | reflexivity]].
    subst s3. unfold log_Fatalln, os_Exit, log_Println. simpl.
    by rewrite <- app_assoc.
Qed.

(** C2, as amended. When [Subscribe] returns an error, the subscriber's
    goroutine prints it and ends, and that is all: the process has not
    exited, the shared context and the signal channel are as they were, the
    server goroutine is as it was, and if main's loop was blocked in its
    [select] it still is. *)
Theorem subscribe_error_is_only_logged (env : Env) (acts : list Action)
    (s : State) (e : error) :
  main env acts = Some s -> exited s = None -> subscriber s = Running ->
  exists s',
    main env (acts ++ [SubscribeReturns (Some e)]) = Some s' /\
    trace s' = trace s ++ [LogPrint (Error e)] /\
    exited s' = None /\ ctx_err s' = ctx_err s /\ signals s' = signals s /\
    server s' = server s /\ subscriber s' = Finished /\
    (select_blocked s -> select_blocked s').
Proof.
  intros H Hx Hsub.
  exists (log_Println (Error e) (set_subscriber Finished s)).
  split; [|split; [|split; [|split; [|split; [|split; [|split]]]]]];
    try reflexivity; try assumption.
  - apply (main_snoc _ _ _ _ _ H). unfold step. by rewrite Hx, Hsub.
  - unfold select_blocked, step. simpl. rewrite Hx.
    destruct (signals s), (ctx_err s); intros [? ?]; split;
      reflexivity || discriminate.
Qed.

(** C3. No run of main closes the broker channel or the broker
    connection: whenever the process exits, and it exits only through
    [log.Fatalln], the trace holds no close; in a run that went past the
    start-up the two closes are still waiting among the deferred
    functions. *)
Theorem deferred_closes_never_run (env : Env) (acts : list Action) (s : State) :
  main env acts = Some s ->
  existsb is_close_event (trace s) = false /\
  (forall c, exited s = Some c -> c = 1%Z) /\
  (forall st s0, main_start env init = (Some st, s0) ->
     defers s = [ DeferChannelClose (channel_of env);
                  DeferConnectionClose (connection_of env) ]).
Proof.
  intros H. pose proof (main_invariant _ _ _ H) as [Hc Hx].
  split; [exact Hc|]. split.
  - intros c Hs. destruct Hx; congruence.
  - intros st s0 Hst. pose proof (main_start_outcome env) as Ho.
    unfold main in H. rewrite Hst in H, Ho.
    destruct Ho as (q & _ & _ & _ & Hd & _).
    apply exec_invariant in H as (_ & _ & Hd' & _). congruence.
Qed.

(** C10. When [engine.Run] returns an error, that very step prints the
    error and exits the process with status 1, and nothing can happen in
    the process afterwards: no goroutine, main's loop included, takes
    another step. *)
Theorem server_error_is_fatal (env : Env) (acts : list Action)
    (s : State) (e : error) :
  main env acts = Some s -> exited s = None -> server s = Running ->
  exists s',
    main env (acts ++ [RunReturns (Some e)]) = Some s' /\
    trace s' = trace s ++ [LogPrint (Error e); OsExit 1] /\
    exited s' = Some 1%Z /\
    forall a, step a s' = None.
Proof.
  intros H Hx Hsrv. exists (log_Fatalln (Error e) s).
  split; [|split; [|split]].
  - apply (main_snoc _ _ _ _ _ H). unfold step. by rewrite Hx, Hsrv.
  - unfold log_Fatalln, os_Exit, log_Println. simpl. by rewrite <- app_assoc.
  - reflexivity.
  - intros a. reflexivity.
Qed.

(** ** Counterexamples *)

(** C1, as stated, fails: in the run in which the interrupt arrives and
    main's loop takes its two cases, no goroutine fails and the process
    exits with status 1. *)
Lemma interrupt_exits_zero_counterexample :
  ~ interrupt_exits_zero good_env.
Proof.
  intros H. assert (1 = 0)%Z as Habs; [|discriminate Habs].
  eapply (H interrupt_run);
    [reflexivity | by left | vm_compute; reflexivity | reflexivity].
Qed.

(** C2, as stated, fails: after [Subscribe] returns "channel/connection is
    not open" the process has not exited and main's loop cannot observe a
    done context. *)
Lemma subscribe_error_is_fatal_counterexample :
  ~ subscribe_error_is_fatal good_env.
Proof.
  intros H.
  destruct (main good_env ([] ++ [SubscribeReturns (Some channel_closed)]))
    as [s|] eqn:Hm; [|vm_compute in Hm; discriminate Hm].
  destruct (H [] s channel_closed Hm) as (c & _ & [Hx | (s' & Hs & _)]);
    vm_compute in Hm; injection Hm as <-.
  - discriminate Hx.
  - discriminate Hs.
Qed.

(** C4, as stated, fails: the handler main registers is built over the
    image database, not over the thumbs-bucket store. *)
Lemma handler_backed_by_thumbs_store_counterexample :
  ~ handler_backed_by_thumbs_store good_env.
Proof.
  intros H.
  edestruct (H good_started good_state) as (r & Hin & _ & Hr);
    [reflexivity|].
  apply list_elem_of_singleton in Hin as ->. discriminate Hr.
Qed.



(** ** Witnesses *)


Lemma topology_declared_witness :
  main_start good_env init = (Some good_started, good_state) /\
  exists q,
    channel_QueueDeclare good_env (os_Getenv good_env queueNameEnv)
      true false false false = inl q /\
    trace good_state =
      [ ExchangeDeclare (os_Getenv good_env bucketExchangeNameEnv) "fanout" true false false false;
        ExchangeDeclare (os_Getenv good_env workerExchangeNameEnv) "fanout" true false false false;
        QueueDeclare (os_Getenv good_env queueNameEnv) true false false false;
        QueueBind (Name q) "" (os_Getenv good_env bucketExchangeNameEnv) false ].
Proof.
  split; [vm_compute; reflexivity|].
  apply (topology_declared good_env good_started good_state).
  vm_compute; reflexivity.
Defined.

Lemma handler_backed_by_database_witness :
  main_start good_env init = (Some good_started, good_state) /\
  routes good_state =
    [ {| route_method := "GET";
         route_path := "/api/thumbs/:filename";
         route_handler :=
           GetThumbsHandler (BackingDatabase (Database_ (started_bundle good_started))) |} ] /\
  Database_ (started_bundle good_started) = NewDatabase (dbConnection_of good_env) /\
  ThumbStorage (started_bundle good_started) =
    NewMinioStorage (client_of good_env) (os_Getenv good_env thumbsBucketEnv) /\
  forall r, r ∈ routes good_state ->
    route_handler r <>
      GetThumbsHandler (BackingStorage (ThumbStorage (started_bundle good_started))).
Proof.
  split; [vm_compute; reflexivity|].
  apply (handler_backed_by_database good_env good_started good_state).
  vm_compute; reflexivity.
Defined.

Lemma interrupt_cancels_then_exit_1_witness :
  (main good_env interrupt_run = Some good_exit /\
   exited good_exit = Some 1%Z /\ ctx_err good_exit = Some Canceled /\
   (forall c, exited good_exit = Some c -> c = 1%Z) /\
   (forall e, ctx_err good_exit = Some e -> e = Canceled /\ In Interrupt interrupt_run) /\
   (exited good_exit = None ->
      exists s1 s2 s3,
        step Interrupt good_exit = Some s1 /\ trace s1 = trace good_exit /\
        step SelectSignals s1 = Some s2 /\
        (exists evs, trace s2 = trace s1 ++ evs /\
                     In (LogPrint "shutting down...") evs) /\
        ctx_err s2 = Some Canceled /\ exited s2 = None /\
        step SelectSignals s2 = None /\
        step SelectDone s2 = Some s3 /\
        (exists evs, trace s3 = trace s2 ++ evs /\
                     In (LogPrint "context canceled") evs /\
                     last evs = Some (OsExit 1)) /\
        exited s3 = Some 1%Z /\
        main good_env (interrupt_run ++ interrupt_run) = Some s3)) /\
  (main good_env [] = Some good_state /\
   exited good_state = None /\
   (forall c, exited good_state = Some c -> c = 1%Z) /\
   (forall e, ctx_err good_state = Some e -> e = Canceled /\ In Interrupt []) /\
   (exited good_state = None ->
      exists s1 s2 s3,
        step Interrupt good_state = Some s1 /\ trace s1 = trace good_state /\
        step SelectSignals s1 = Some s2 /\
        (exists evs, trace s2 = trace s1 ++ evs /\
                     In (LogPrint "shutting down...") evs) /\
        ctx_err s2 = Some Canceled /\ exited s2 = None /\
        step SelectSignals s2 = None /\
        step SelectDone s2 = Some s3 /\
        (exists evs, trace s3 = trace s2 ++ evs /\
                     In (LogPrint "context canceled") evs /\
                     last evs = Some (OsExit 1)) /\
        exited s3 = Some 1%Z /\
        main good_env ([] ++ interrupt_run) = Some s3)).
Proof.
  split.
  - split; [vm_compute; reflexivity|].
    split; [vm_compute; reflexivity|].
    split; [vm_compute; reflexivity|].
    apply (interrupt_cancels_then_exit_1 good_env interrupt_run good_exit).
    vm_compute; reflexivity.
  - split; [vm_compute; reflexivity|].
    split; [vm_compute; reflexivity|].
    apply (interrupt_cancels_then_exit_1 good_env [] good_state).
    vm_compute; reflexivity.
Defined.

Lemma subscribe_error_is_only_logged_witness :
  main good_env [] = Some good_state /\
  exited good_state = None /\ subscriber good_state = Running /\
  exists s',
    main good_env ([] ++ [SubscribeReturns (Some channel_closed)]) = Some s' /\
    trace s' = trace good_state ++ [LogPrint (Error channel_closed)] /\
    exited s' = None /\ ctx_err s' = ctx_err good_state /\
    signals s' = signals good_state /\
    server s' = server good_state /\ subscriber s' = Finished /\
    (select_blocked good_state -> select_blocked s').
Proof.
  split; [vm_compute; reflexivity|].
  split; [vm_compute; reflexivity|].
  split; [vm_compute; reflexivity|].
  apply (subscribe_error_is_only_logged good_env [] good_state channel_closed);
    vm_compute; reflexivity.
Defined.

Lemma deferred_closes_never_run_witness :
  main good_env interrupt_run = Some good_exit /\
  exited good_exit = Some 1%Z /\
  existsb is_close_event (trace good_exit) = false /\
  (forall c, exited good_exit = Some c -> c = 1%Z) /\
  (forall st s0, main_start good_env init = (Some st, s0) ->
     defers good_exit = [ DeferChannelClose (channel_of good_env);
                          DeferConnectionClose (connection_of good_env) ]).
Proof.
  split; [vm_compute; reflexivity|].
  split; [vm_compute; reflexivity|].
  apply (deferred_closes_never_run good_env interrupt_run good_exit).
  vm_compute; reflexivity.
Defined.

Lemma server_error_is_fatal_witness :
  main good_env [] = Some good_state /\
  exited good_state = None /\ server good_state = Running /\
  exists s',
    main good_env ([] ++ [RunReturns (Some address_in_use)]) = Some s' /\
    trace s' = trace good_state ++ [LogPrint (Error address_in_use); OsExit 1] /\
    exited s' = Some 1%Z /\
    forall a, step a s' = None.
Proof.
  split; [vm_compute; reflexivity|].
  split; [vm_compute; reflexivity|].
  split; [vm_compute; reflexivity|].
  apply (server_error_is_fatal good_env [] good_state address_in_use);
    vm_compute; reflexivity.
Defined.

End MainFacts.

(* ===================================================================== *)
(** * The object store adapter: further properties *)
(* ===================================================================== *)

Section BucketMore.
Import Bucket.

(** The writes of [io.Copy] are the non-empty chunks of the source, in
    order, up to the first one the backend fails; all of them when the copy
    reports no error. *)
Lemma copy_chunks_calls chunks : forall w rerr n h,
  let '(_, e, _, h') := copy_chunks w chunks rerr n h in
  (exists k, calls h' =
     calls h ++ map (CWrite (w_name w)) (take k (List.filter is_nonempty chunks))) /\
  (e = None ->
   calls h' = calls h ++ map (CWrite (w_name w)) (List.filter is_nonempty chunks)).
Proof.
  induction chunks as [|p rest IH]; intros w rerr n h; simpl.
  - split; [exists 0|intros _]; simpl; by rewrite app_nil_r.
  - destruct p as [|b p]; simpl.
    + apply IH.
    + unfold Write at 1. destruct (fault _ h) as [e|]; simpl.
      * split; [|discriminate]. by exists 1.
      * specialize (IH {| w_name := w_name w; w_buf := w_buf w ++ b :: p |}
                       rerr (n + S (length p)) (record (CWrite (w_name w) (b :: p)) h)).
        destruct (copy_chunks _ rest rerr _ _) as [[[n' e'] w'] h'].
        simpl in IH. destruct IH as [[k Hk] Hall]. split.
        -- exists (S k). rewrite Hk. simpl. by rewrite <- app_assoc.
        -- intros He. rewrite (Hall He). simpl. by rewrite <- app_assoc.
Qed.

(** The objects after a [Put] that returned an error. *)
Lemma Put_error_keeps_objects (s : Bucket) (image : Thumbnail) (e : error) :
  (Put s image).1 = Some e ->
  objects (handle (Put s image).2) = objects (handle s).
Proof.
  intros H. pose proof (Put_cases s image) as [Hc _].
  destruct (copy_err s image).
  - by destruct Hc as (_ & Ho & _).
  - destruct Hc as (He & _ & Ho & _). rewrite <- He, H in Ho. exact Ho.
Qed.

(** X1. A [Put] that returns an error, from the copy or from the close,
    leaves the stored objects exactly as they were: no partial object
    becomes visible. *)
Theorem Put_failure_changes_nothing (s : Bucket) (image : Thumbnail) (e : error) :
  (Put s image).1 = Some e ->
  objects (handle (Put s image).2) = objects (handle s).
Proof. apply Put_error_keeps_objects. Qed.

(** X2. A [Put], successful or not, leaves the object stored under every
    other filename as it was. *)
Theorem Put_other_keys_untouched (s : Bucket) (image : Thumbnail) (g : string) :
  g <> Filename image ->
  objects (handle (Put s image).2) !! g = objects (handle s) !! g.
Proof.
  intros Hne. pose proof (Put_cases s image) as [Hc _].
  destruct (copy_err s image).
  - destruct Hc as (_ & -> & _). reflexivity.
  - destruct Hc as (_ & _ & -> & _).
    destruct (close_err s image); [reflexivity|].
    apply lookup_insert_ne. congruence.
Qed.

(** The calls of one [Put], by the outcome of its copy. *)
Lemma Put_calls_shape (s : Bucket) (image : Thumbnail) :
  match copy_err s image with
  | None =>
      calls_of_Put s image =
        CNewWriter (Filename image)
          :: map (CWrite (Filename image)) (written_chunks (Reader image))
          ++ [CClose (Filename image)]
  | Some _ =>
      exists k, calls_of_Put s image =
        CNewWriter (Filename image)
          :: map (CWrite (Filename image)) (take k (written_chunks (Reader image)))
  end.
Proof.
  unfold calls_of_Put, copy_err, Put, io_Copy, NewWriter, written_chunks.
  set (w0 := {| w_name := Filename image; w_buf := [] |}).
  set (h1 := record (CNewWriter (Filename image)) (handle s)).
  pose proof (copy_chunks_calls (r_chunks (Reader image)) w0 (r_err (Reader image)) 0 h1) as Hk.
  pose proof (copy_chunks_frame (r_chunks (Reader image)) w0 (r_err (Reader image)) 0 h1) as Hf.
  destruct (copy_chunks w0 _ _ 0 h1) as [[[n e] w'] h2].
  destruct Hk as [[k Hk] Hall]. destruct Hf as (_ & _ & Hn & _).
  destruct e as [e|]; simpl.
  - exists k. rewrite Hk. subst h1. simpl.
    rewrite <- app_assoc. by rewrite drop_app_length.
  - unfold Close, fault. rewrite Hn. subst w0 h1. simpl in *.
    destruct (oracle h2 _); simpl; rewrite (Hall eq_refl); simpl;
      rewrite <- !app_assoc; by rewrite drop_app_length.
Qed.

(** X3. The backend calls of one [Put]: the writer is opened for the
    thumbnail's filename; when the copy succeeds every non-empty chunk of
    the source is written, in order and one call per chunk, and the writer
    is then closed; when the copy fails the writes are a prefix of those
    chunks and nothing follows. *)
Theorem Put_streams_chunks (s : Bucket) (image : Thumbnail) :
  match copy_err s image with
  | None =>
      calls_of_Put s image =
        CNewWriter (Filename image)
          :: map (CWrite (Filename image)) (written_chunks (Reader image))
          ++ [CClose (Filename image)]
  | Some _ =>
      exists k, calls_of_Put s image =
        CNewWriter (Filename image)
          :: map (CWrite (Filename image)) (take k (written_chunks (Reader image)))
  end.
Proof. apply Put_calls_shape. Qed.

(** A source without a byte has no chunk to write. *)
Lemma written_chunks_empty (r : io_Reader) :
  content r = [] -> written_chunks r = [].
Proof.
  unfold content, written_chunks. induction (r_chunks r) as [|p l IH]; [reflexivity|].
  simpl. intros H. apply app_eq_nil in H as [-> H]. simpl. by apply IH.
Qed.

(** X4. A successful [Put] of a stream without a byte stores an empty
    object under the filename (it does not skip the object): the backend
    sees the writer opened and closed and no write in between, and [Get]
    then returns a reader that ends at once. *)
Theorem Put_empty_stream (s : Bucket) (image : Thumbnail) :
  content (Reader image) = [] ->
  (Put s image).1 = None ->
  objects (handle (Put s image).2) !! Filename image = Some [] /\
  calls_of_Put s image = [CNewWriter (Filename image); CClose (Filename image)] /\
  match (Get (Put s image).2 (Filename image)).1 with
  | inl rd => io_ReadAll rd = ([], None)
  | inr e => fault (CNewReader (Filename image)) (handle (Put s image).2) = Some e
  end.
Proof.
  intros Hc Hok.
  pose proof (Put_cases s image) as [Hcase _].
  pose proof (Put_calls_shape s image) as Hcalls.
  destruct (copy_err s image) as [e|].
  - destruct Hcase as [He _]. congruence.
  - destruct Hcase as (He & _ & Ho & _). rewrite <- He, Hok, Hc in Ho.
    rewrite (written_chunks_empty _ Hc) in Hcalls. simpl in Hcalls.
    assert (objects (handle (Put s image).2) !! Filename image = Some []) as Hl.
    { rewrite Ho. apply lookup_insert_eq. }
    split; [exact Hl|]. split; [exact Hcalls|].
    unfold Get, NewReader.
    destruct (fault _ (handle (Put s image).2)); simpl; [reflexivity|].
    rewrite Hl. reflexivity.
Qed.

(** X5. After any sequence of [Put]s, what is stored under a filename is
    the content of the last [Put] of that filename that returned nil, and
    what was stored before the sequence when there is none: failed [Put]s
    and [Put]s of other filenames do not count. *)
Theorem Puts_last_success_wins (images : list Thumbnail) :
  forall (s : Bucket) (f : string),
    objects (handle (Puts images s).2) !! f =
      last_committed f images (Puts images s).1 (objects (handle s) !! f).
Proof.
  induction images as [|image rest IH]; intros s f; simpl; [reflexivity|].
  destruct (Put s image) as [r s1] eqn:HP.
  specialize (IH s1 f). destruct (Puts rest s1) as [rs s2]. simpl in *.
  rewrite IH. f_equal.
  assert ((Put s image).1 = r) as Hr by (by rewrite HP).
  assert ((Put s image).2 = s1) as Hs by (by rewrite HP).
  destruct r as [e|].
  - rewrite <- Hs. by rewrite (Put_error_keeps_objects s image e Hr).
  - apply Put_ok in HP as [Ho _]. rewrite Ho.
    destruct (String.eqb_spec (Filename image) f) as [->|Hne].
    + apply lookup_insert_eq.
    + by apply lookup_insert_ne.
Qed.

(** X6. Putting the same thumbnail again is idempotent on the bucket: when
    both [Put]s return nil the stored objects after the second are those
    after the first. *)
Theorem Put_replay_idempotent (s s1 s2 : Bucket) (image : Thumbnail) :
  Put s image = (None, s1) ->
  Put s1 image = (None, s2) ->
  objects (handle s2) = objects (handle s1).
Proof.
  intros H1 H2. apply Put_ok in H1 as [H1 _]. apply Put_ok in H2 as [H2 _].
  rewrite H2, H1. apply insert_insert_eq.
Qed.

(** ** Witnesses *)

Lemma Put_failure_changes_nothing_witness :
  (Put bucket_v1 thumb_truncated).1 = Some (Err "unexpected EOF") /\
  objects (handle (Put bucket_v1 thumb_truncated).2) = objects (handle bucket_v1).
Proof.
  split; [vm_compute; reflexivity|].
  apply (Put_failure_changes_nothing bucket_v1 thumb_truncated (Err "unexpected EOF")).
  vm_compute; reflexivity.
Defined.

Lemma Put_other_keys_untouched_witness :
  "photo123_100.jpg" <> Filename thumb_other /\
  objects (handle (Put bucket_v1 thumb_other).2) !! "photo123_100.jpg" =
    objects (handle bucket_v1) !! "photo123_100.jpg".
Proof.
  split; [discriminate|].
  apply (Put_other_keys_untouched bucket_v1 thumb_other "photo123_100.jpg").
  discriminate.
Defined.

Lemma Put_empty_stream_witness :
  content (Reader thumb_empty) = [] /\
  (Put bucket_v1 thumb_empty).1 = None /\
  objects (handle (Put bucket_v1 thumb_empty).2) !! Filename thumb_empty = Some [] /\
  calls_of_Put bucket_v1 thumb_empty =
    [CNewWriter (Filename thumb_empty); CClose (Filename thumb_empty)] /\
  match (Get (Put bucket_v1 thumb_empty).2 (Filename thumb_empty)).1 with
  | inl rd => io_ReadAll rd = ([], None)
  | inr e => fault (CNewReader (Filename thumb_empty))
               (handle (Put bucket_v1 thumb_empty).2) = Some e
  end.
Proof.
  split; [vm_compute; reflexivity|]. split; [vm_compute; reflexivity|].
  apply (Put_empty_stream bucket_v1 thumb_empty); vm_compute; reflexivity.
Defined.

Lemma Put_replay_idempotent_witness :
  Put bucket_v1 thumb_v2 = (None, bucket_v2) /\
  Put bucket_v2 thumb_v2 = (None, (Put bucket_v2 thumb_v2).2) /\
  objects (handle (Put bucket_v2 thumb_v2).2) = objects (handle bucket_v2).
Proof.
  split; [vm_compute; reflexivity|]. split; [vm_compute; reflexivity|].
  apply (Put_replay_idempotent bucket_v1 bucket_v2 (Put bucket_v2 thumb_v2).2 thumb_v2);
    vm_compute; reflexivity.
Defined.

End BucketMore.

(* ===================================================================== *)
(** * The lifecycle controller: further properties *)
(* ===================================================================== *)

Section MainMore.
Import Main.

Ltac unfold_start :=
  unfold main_start, mbind, M_bind, must, check, fatal, act, mret, M_ret,
    declareExchange, declareAndBindQueue, Channel_ExchangeDeclare,
    Channel_QueueDeclare, Channel_QueueBind.

Ltac refuted :=
  unfold startup_calls_succeed, dbConnection_of, connection_of; simpl;
  intros (Hcfg & Hdb & Hminio & Hdial & Hchan & Hex1 & Hex2 & q' & Hq' & Hbind);
  try destruct Hcfg as [? Hcfg]; congruence.

Ltac failed_start :=
  split; [refuted|];
  repeat (split; [reflexivity|]);
  match goal with
  | |- exists pre m, trace ?s = _ /\ _ =>
      let tr := eval cbn in (trace s) in
      match tr with
      | [LogPrint ?m; OsExit _] => exists [], m
      | [?a; LogPrint ?m; OsExit _] => exists [a], m
      | [?a; ?b; LogPrint ?m; OsExit _] => exists [a; b], m
      | [?a; ?b; ?c; LogPrint ?m; OsExit _] => exists [a; b; c], m
      | [?a; ?b; ?c; ?d; LogPrint ?m; OsExit _] => exists [a; b; c; d], m
      end
  end; split; reflexivity.

(** The start-up in full: what main has built when it completes, and how
    the process is left when it does not. *)
Lemma main_start_cases env :
  match main_start env init with
  | (Some st, s) =>
      startup_calls_succeed env /\
      exists configs q,
        config_Load env (os_Getenv env configFileEnv) = inl configs /\
        channel_QueueDeclare env (os_Getenv env queueNameEnv) true false false false = inl q /\
        let publisher := NewAmpqPublisher (channel_of env) (os_Getenv env workerExchangeNameEnv) in
        let bundle :=
          {| PhotoStorage := NewMinioStorage (client_of env) (os_Getenv env photosBucketEnv);
             ThumbStorage := NewMinioStorage (client_of env) (os_Getenv env thumbsBucketEnv);
             Database_ := NewDatabase (dbConnection_of env);
             Processor_ := NewImagingProcessor;
             Producer_ := NewProducer publisher;
             Dimensions := Thumbs_Dimensions configs |} in
        st = {| started_bundle := bundle;
                started_consumer := NewConsumer (NewThumbsWorker bundle);
                started_subscriber := NewAmqpSubscriber (channel_of env) q;
                started_publisher := publisher |}
  | (None, s) =>
      ~ startup_calls_succeed env /\
      exited s = Some 1%Z /\
      subscriber s = NotStarted /\ server s = NotStarted /\
      routes s = [] /\ notified s = false /\
      exists pre m,
        trace s = pre ++ [LogPrint m; OsExit 1] /\
        forallb is_broker_call pre = true
  end.
Proof.
  unfold_start.
  destruct (config_Load env _) as [configs|e] eqn:Hcfg0; [|failed_start].
  destruct (database_NewConnection env _) as [e|] eqn:Hdb0; [failed_start|].
  destruct (minio_New env _ _ _) as [e|] eqn:Hminio0; [failed_start|].
  destruct (amqp_Dial env _) as [e|] eqn:Hdial0; [failed_start|].
  destruct (connection_Channel env _) as [e|] eqn:Hchan0; [failed_start|].
  cbn.
  destruct (channel_ExchangeDeclare env (os_Getenv env bucketExchangeNameEnv) _ _ _ _ _)
    as [e|] eqn:Hex10; [failed_start|].
  destruct (channel_ExchangeDeclare env (os_Getenv env workerExchangeNameEnv) _ _ _ _ _)
    as [e|] eqn:Hex20; [failed_start|].
  unfold_start.
  destruct (channel_QueueDeclare env _ _ _ _ _) as [q|e] eqn:Hq0; [|failed_start].
  destruct (channel_QueueBind env _ _ _ _) as [e|] eqn:Hbind0; [failed_start|].
  split.
  - unfold startup_calls_succeed, dbConnection_of, connection_of. simpl.
    repeat split; eauto.
  - exists configs, q. repeat split; reflexivity.
Qed.

(** X8. The start-up completes exactly when every one of its calls
    succeeds: loading the configuration, connecting to the database,
    creating the object-store client, dialling the broker, opening the
    channel, declaring the two exchanges, declaring the queue and binding
    it under the name the broker returned. *)
Theorem main_start_succeeds_iff (env : Env) :
  (exists st s, main_start env init = (Some st, s)) <-> startup_calls_succeed env.
Proof.
  pose proof (main_start_cases env) as H.
  destruct (main_start env init) as [[st|] s].
  - destruct H as [H _]. split; [auto | eauto].
  - destruct H as [H _]. split; [intros (? & ? & [=]) | contradiction].
Qed.

(** X9. A start-up that fails leaves no half-started process: it has
    exited with status 1, the last thing observed being one log line
    followed by the exit; neither goroutine was launched, no route was
    registered, the interrupt was not yet routed to the channel; and before
    the log line only broker calls were observed. *)
Theorem failed_start_is_fatal (env : Env) (s : State) :
  main_start env init = (None, s) ->
  exited s = Some 1%Z /\
  subscriber s = NotStarted /\ server s = NotStarted /\
  routes s = [] /\ notified s = false /\
  exists pre m,
    trace s = pre ++ [LogPrint m; OsExit 1] /\
    forallb is_broker_call pre = true.
Proof.
  intros H. pose proof (main_start_cases env) as Hc. rewrite H in Hc.
  by destruct Hc as [_ Hc].
Qed.

(** X10. [declareAndBindQueue] binds only a queue the broker declared, and
    under the name the broker returned for it: when the declaration fails
    it returns the zero queue with the declaration's error and sends no
    bind; when it succeeds it sends one bind with the empty key and returns
    the declared queue with the bind's error, nil or not. *)
Theorem declareAndBindQueue_binds_declared_queue (env : Env) (ch : Channel)
    (queue exchange : string) (s : State) :
  let r := declareAndBindQueue env ch queue exchange s in
  match channel_QueueDeclare env queue true false false false with
  | inr err =>
      r.1 = Some (Queue_zero, Some err) /\
      trace r.2 = trace s ++ [QueueDeclare queue true false false false]
  | inl q =>
      r.1 = Some (q, channel_QueueBind env (Name q) "" exchange false) /\
      trace r.2 = trace s ++ [QueueDeclare queue true false false false;
                              QueueBind (Name q) "" exchange false]
  end.
Proof.
  simpl. rewrite declareAndBindQueue_calls.
  destruct (channel_QueueDeclare env queue true false false false); simpl.
  - split; [reflexivity|]. by rewrite <- app_assoc.
  - split; reflexivity.
Qed.


(** Without an interrupt and without an error of [engine.Run], a schedule
    leaves the process running with nothing for main's loop to take. *)
Lemma exec_quiet acts : forall s s',
  exec acts s = Some s' ->
  forallb quiet acts = true ->
  exited s = None -> signals s = false -> ctx_err s = None ->
  exited s' = None /\ signals s' = false /\ ctx_err s' = None.
Proof.
  induction acts as [|a acts IH]; intros s s' H Hq Hx Hsig Hctx; simpl in H.
  - injection H as <-. auto.
  - destruct (step a s) as [s1|] eqn:Hs; [|discriminate].
    simpl in Hq. apply andb_prop in Hq as [Ha Hq].
    assert (exited s1 = None /\ signals s1 = false /\ ctx_err s1 = None)
      as (Hx1 & Hsig1 & Hctx1).
    { unfold step in Hs. rewrite Hx in Hs.
      destruct a as [| | |r|r]; simpl in Ha; try discriminate Ha.
      - rewrite Hsig in Hs. discriminate Hs.
      - rewrite Hctx in Hs. discriminate Hs.
      - destruct (subscriber s); try discriminate Hs.
        destruct r; injection Hs as <-; auto.
      - destruct (server s); try discriminate Hs.
        destruct r; [discriminate Ha|]. injection Hs as <-; auto. }
    by apply (IH _ _ H Hq).
Qed.

(** X12. Once started, the process exits only on an interrupt or on an
    error of the HTTP server: in a run with neither, whatever the
    subscriber does (it may return, with an error or without), the process
    has not exited and main's loop is blocked in its [select]. *)
Theorem no_exit_without_interrupt_or_server_error (env : Env)
    (st : Started) (s0 s : State) (acts : list Action) :
  main_start env init = (Some st, s0) ->
  main env acts = Some s ->
  forallb quiet acts = true ->
  exited s = None /\ select_blocked s.
Proof.
  intros Hst H Hq. unfold main in H. rewrite Hst in H.
  pose proof (main_start_outcome env) as Ho. rewrite Hst in Ho.
  destruct Ho as (q & _ & _ & _ & _ & Hsig & Hctx & _ & _ & _ & Hx & _).
  destruct (exec_quiet _ _ _ H Hq Hx Hsig Hctx) as (Hx' & Hsig' & Hctx').
  split; [exact Hx'|]. unfold select_blocked, step. by rewrite Hx', Hsig', Hctx'.
Qed.

(** X13. The two ways a started process ends: a run that has exited
    ended with main's loop observing the cancelled context, which logged
    "context canceled", or with [engine.Run] returning an error, which
    logged that error; in both cases the status is 1, the log line was
    observed during that last step and the exit is the last thing
    observed. *)
Theorem exit_causes (env : Env) (st : Started) (s0 s : State)
    (acts : list Action) (c : Z) :
  main_start env init = (Some st, s0) ->
  main env acts = Some s ->
  exited s = Some c ->
  c = 1%Z /\
  exists before final s1 evs,
    acts = before ++ [final] /\
    main env before = Some s1 /\ exited s1 = None /\
    trace s = trace s1 ++ evs /\ last evs = Some (OsExit 1) /\
    ((final = SelectDone /\ ctx_err s1 = Some Canceled /\
      In (LogPrint "context canceled") evs) \/
     (exists e, final = RunReturns (Some e) /\ In (LogPrint (Error e)) evs)).
Proof.
  intros Hst H Hc.
  split; [apply main_invariant in H as [_ [Hx|Hx]]; congruence|].
  pose proof (main_start_outcome env) as Ho. rewrite Hst in Ho.
  destruct Ho as (q & _ & _ & _ & _ & _ & _ & _ & _ & _ & Hx0 & _).
  destruct acts as [|a acts _] using rev_ind.
  - unfold main in H. rewrite Hst in H. simpl in H. injection H as <-. congruence.
  - assert (exists s1, main env acts = Some s1 /\ step a s1 = Some s) as (s1 & H1 & Hs).
    { unfold main in *. rewrite Hst in *. rewrite exec_app in H.
      destruct (exec acts s0) as [s1|]; [|discriminate].
      simpl in H. destruct (step a s1) eqn:Hs; [|discriminate].
      injection H as <-. eauto. }
    pose proof (step_invariant _ _ _ Hs) as (_ & _ & Hx1 & _).
    destruct (main_ctx _ _ _ H1) as [Hctx _].
    unfold step in Hs. rewrite Hx1 in Hs.
    destruct a as [| | |r|r].
    + destruct (notified s1); [|discriminate]. injection Hs as <-. simpl in Hc. congruence.
    + destruct (signals s1); [|discriminate]. injection Hs as <-.
      unfold cancel in Hc. simpl in Hc. destruct (ctx_err s1); simpl in Hc; congruence.
    + destruct Hctx as [Hn|Hn]; rewrite Hn in Hs; [discriminate|].
      injection Hs as <-.
      exists acts, SelectDone, s1, [LogPrint "context canceled"; OsExit 1].
      split; [reflexivity|]. split; [exact H1|]. split; [exact Hx1|].
      split; [unfold log_Fatalln, os_Exit, log_Println; simpl; by rewrite <- app_assoc|].
      split; [reflexivity|]. left. split; [reflexivity|]. split; [exact Hn | by left].
    + destruct (subscriber s1); try discriminate.
      destruct r; injection Hs as <-; simpl in Hc; congruence.
    + destruct (server s1); try discriminate.
      destruct r as [e|]; injection Hs as <-; [|simpl in Hc; congruence].
      exists acts, (RunReturns (Some e)), s1, [LogPrint (Error e); OsExit 1].
      split; [reflexivity|]. split; [exact H1|]. split; [exact Hx1|].
      split; [unfold log_Fatalln, os_Exit, log_Println; simpl; by rewrite <- app_assoc|].
      split; [reflexivity|]. right. exists e. split; [reflexivity | by left].
Qed.

(** An action sends nothing to the broker. *)
Lemma step_no_broker_call a s s' :
  step a s = Some s' ->
  List.filter is_broker_call (trace s') = List.filter is_broker_call (trace s).
Proof.
  intros H. unfold step in H.
  repeat match type of H with
         | context [match ?x with _ => _ end] => destruct x eqn:?; try discriminate H
         end;
    injection H as <-; unfold cancel; simpl;
    repeat match goal with
           | |- context [match ?x with _ => _ end] => destruct x eqn:?
           end; simpl;
    rewrite ?List.filter_app; simpl; rewrite ?app_nil_r; reflexivity.
Qed.

(** X14. The broker topology is declared once, at start-up, and never
    again: in every run of a started process the calls the broker has
    received are the four of the start-up, whatever happened since. *)
Theorem topology_declared_once (env : Env) (st : Started) (s0 s : State)
    (acts : list Action) :
  main_start env init = (Some st, s0) ->
  main env acts = Some s ->
  List.filter is_broker_call (trace s) = trace s0.
Proof.
  intros Hst H. unfold main in H. rewrite Hst in H.
  pose proof (main_start_outcome env) as Ho. rewrite Hst in Ho.
  destruct Ho as (q & _ & _ & Ht & _).
  assert (List.filter is_broker_call (trace s0) = trace s0) as <-.
  { rewrite Ht. reflexivity. }
  clear Hst Ht. revert s0 H.
  induction acts as [|a acts IH]; intros s0 H; simpl in H.
  - by injection H as <-.
  - destruct (step a s0) as [s1|] eqn:Hs; [|discriminate].
    rewrite (IH _ H). by apply (step_no_broker_call a).
Qed.

(** X15. The signal channel holds one signal: interrupts that arrive
    before main's loop has taken the one that is waiting are dropped, so
    any number of interrupts in a row leaves the process as a single one
    does. *)
Theorem interrupts_coalesce (env : Env) (acts : list Action) (s : State) (n : nat) :
  main env acts = Some s -> exited s = None ->
  main env (acts ++ replicate (S n) Interrupt) = main env (acts ++ [Interrupt]) /\
  main env (acts ++ [Interrupt]) = Some (set_signals true s).
Proof.
  intros H Hx. pose proof (main_live _ _ _ H Hx) as Hn.
  assert (step Interrupt s = Some (set_signals true s)) as Hs.
  { unfold step. by rewrite Hx, Hn. }
  assert (step Interrupt (set_signals true s) = Some (set_signals true s)) as Hs'.
  { unfold step. simpl. by rewrite Hx, Hn. }
  pose proof (main_snoc _ _ _ _ _ H Hs) as H1.
  split; [|exact H1]. rewrite H1.
  induction n as [|n IH].
  - exact H1.
  - rewrite (replicate_S_end (S n)), app_assoc.
    by apply (main_snoc _ _ _ _ _ IH).
Qed.

(** main on concrete brokers: one that refuses the queue, one that names
    it. *)
Example main_queue_refused :
  trace refused_state =
    [ ExchangeDeclare "$BUCKET_EXCHANGE_NAME" "fanout" true false false false;
      ExchangeDeclare "$WORKER_EXCHANGE_NAME" "fanout" true false false false;
      QueueDeclare "$QUEUE_NAME" true false false false;
      LogPrint "PRECONDITION_FAILED - inequivalent arg 'durable'";
      OsExit 1 ].
Proof. reflexivity. Qed.

Example main_broker_named_queue :
  trace broker_named_state =
    [ ExchangeDeclare "$BUCKET_EXCHANGE_NAME" "fanout" true false false false;
      ExchangeDeclare "$WORKER_EXCHANGE_NAME" "fanout" true false false false;
      QueueDeclare "$QUEUE_NAME" true false false false;
      QueueBind "amq.gen-JzTY20BRgKO" "" "$BUCKET_EXCHANGE_NAME" false ].
Proof. reflexivity. Qed.

(** ** Witnesses *)

Lemma failed_start_is_fatal_witness :
  main_start queue_refused_env init = (None, refused_state) /\
  exited refused_state = Some 1%Z /\
  subscriber refused_state = NotStarted /\ server refused_state = NotStarted /\
  routes refused_state = [] /\ notified refused_state = false /\
  exists pre m,
    trace refused_state = pre ++ [LogPrint m; OsExit 1] /\
    forallb is_broker_call pre = true.
Proof.
  split; [vm_compute; reflexivity|].
  apply (failed_start_is_fatal queue_refused_env refused_state).
  vm_compute; reflexivity.
Defined.


Lemma no_exit_without_interrupt_or_server_error_witness :
  main_start good_env init = (Some good_started, good_state) /\
  main good_env idle_run = Some idle_state /\
  forallb quiet idle_run = true /\
  exited idle_state = None /\ select_blocked idle_state.
Proof.
  split; [vm_compute; reflexivity|].
  split; [vm_compute; reflexivity|].
  split; [vm_compute; reflexivity|].
  apply (no_exit_without_interrupt_or_server_error good_env good_started
           good_state idle_state idle_run); vm_compute; reflexivity.
Defined.

Lemma exit_causes_witness :
  main_start good_env init = (Some good_started, good_state) /\
  main good_env interrupt_run = Some good_exit /\
  exited good_exit = Some 1%Z /\
  1%Z = 1%Z /\
  exists before final s1 evs,
    interrupt_run = before ++ [final] /\
    main good_env before = Some s1 /\ exited s1 = None /\
    trace good_exit = trace s1 ++ evs /\ last evs = Some (OsExit 1) /\
    ((final = SelectDone /\ ctx_err s1 = Some Canceled /\
      In (LogPrint "context canceled") evs) \/
     (exists e, final = RunReturns (Some e) /\ In (LogPrint (Error e)) evs)).
Proof.
  split; [vm_compute; reflexivity|].
  split; [vm_compute; reflexivity|].
  split; [vm_compute; reflexivity|].
  apply (exit_causes good_env good_started good_state good_exit interrupt_run 1%Z);
    vm_compute; reflexivity.
Defined.

Lemma topology_declared_once_witness :
  main_start good_env init = (Some good_started, good_state) /\
  main good_env interrupt_run = Some good_exit /\
  List.filter is_broker_call (trace good_exit) = trace good_state.
Proof.
  split; [vm_compute; reflexivity|].
  split; [vm_compute; reflexivity|].
  apply (topology_declared_once good_env good_started good_state good_exit interrupt_run);
    vm_compute; reflexivity.
Defined.

Lemma interrupts_coalesce_witness :
  main good_env [] = Some good_state /\ exited good_state = None /\
  main good_env ([] ++ replicate 3 Interrupt) = main good_env ([] ++ [Interrupt]) /\
  main good_env ([] ++ [Interrupt]) = Some (set_signals true good_state).
Proof.
  split; [vm_compute; reflexivity|].
  split; [vm_compute; reflexivity|].
  apply (interrupts_coalesce good_env [] good_state 2); vm_compute; reflexivity.
Defined.

End MainMore.
